(** * clio resilience layer: DOSGuard, LoadBalancer and Retry

    A shallow embedding of three pieces of clio:

    - [web::dosguard::DOSGuard] (DOSGuard.cpp): per-client admission control;
    - [LoadBalancer] (the ETL source pool): fetch-with-failover, request
      forwarding and the choice of the source whose transaction stream is
      propagated;
    - [util::Retry] (util/Retry.hpp): the scheduled retry primitive and its
      exponential backoff strategy.

    Every C++ member function becomes a function on an explicit state record.
    Unsigned machine integers are [N] with the reduction modulo the width
    written at each arithmetic operation; [std::unordered_map] is a [gmap];
    the vector of sources is a [list] read with [!!]. *)

From Stdlib Require Import ZArith NArith Lia List Bool.
From stdpp Require Import base strings gmap list option.

(** * Part I: the embedding *)

(** ** Machine integers *)

Section MachineIntegers.
Local Open Scope N_scope.

Definition UINT32_MOD : N := 2 ^ 32.
Definition SIZE_T_MOD : N := 2 ^ 64.

(** [x++] on a [uint32_t]. *)
Definition u32_incr (x : N) : N := (x + 1) mod UINT32_MOD.

(** [x--] on a [uint32_t]. *)
Definition u32_decr (x : N) : N := (x + UINT32_MOD - 1) mod UINT32_MOD.

(** [x += y] on a [uint32_t]. *)
Definition u32_add (x y : N) : N := (x + y) mod UINT32_MOD.

(** [++x] on a [size_t]. *)
Definition size_t_incr (x : N) : N := (x + 1) mod SIZE_T_MOD.

End MachineIntegers.

(** ** DOSGuard *)

Module DOSGuard.
Local Open Scope N_scope.

(** The value type of [ipState_]: the structured binding in [isOk] reads its
    two members in this order. Both are 32-bit unsigned counters whose default
    member initialiser is zero. *)
Record ClientState := mkClientState {
  transferedByte : N;
  requestsCount : N
}.

Definition ClientState_default : ClientState := mkClientState 0 0.

(** The guard. [whitelistHandler_] is the [WhitelistHandlerInterface] the guard
    holds a reference to; only its [isWhiteListed] query is used. The three
    limits are unsigned like the counters they are compared with ([add] takes
    the amount it adds as a [uint32_t]). *)
Record t := mk {
  whitelistHandler_ : string → bool;
  maxFetches_ : N;
  maxConnCount_ : N;
  maxRequestCount_ : N;
  ipState_ : gmap string ClientState;
  ipConnCount_ : gmap string N
}.

Definition with_ipState (g : t) (m : gmap string ClientState) : t :=
  mk (whitelistHandler_ g) (maxFetches_ g) (maxConnCount_ g)
     (maxRequestCount_ g) m (ipConnCount_ g).

Definition with_ipConnCount (g : t) (m : gmap string N) : t :=
  mk (whitelistHandler_ g) (maxFetches_ g) (maxConnCount_ g)
     (maxRequestCount_ g) (ipState_ g) m.

(** A freshly constructed guard: both maps are empty. *)
Definition make (whitelist : string → bool) (maxFetches maxConn maxRequests : N) : t :=
  mk whitelist maxFetches maxConn maxRequests ∅ ∅.

(** [std::unordered_map::operator[]] as an rvalue: the stored value, or the
    value-initialised one when the key is absent. *)
Definition ipState_at (g : t) (ip : string) : ClientState :=
  default ClientState_default (ipState_ g !! ip).

Definition ipConnCount_at (g : t) (ip : string) : N :=
  default 0 (ipConnCount_ g !! ip).

Definition isWhiteListed (g : t) (ip : string) : bool := whitelistHandler_ g ip.

(** [DOSGuard::isOk]. *)
Definition isOk (g : t) (ip : string) : bool :=
  if whitelistHandler_ g ip then true
  else
    let over_state :=
      match ipState_ g !! ip with
      | Some st =>
          (maxFetches_ g <? transferedByte st) || (maxRequestCount_ g <? requestsCount st)
      | None => false
      end in
    if over_state then false
    else
      match ipConnCount_ g !! ip with
      | Some c => if maxConnCount_ g <? c then false else true
      | None => true
      end.

(** [DOSGuard::increment]. *)
Definition increment (g : t) (ip : string) : t :=
  if whitelistHandler_ g ip then g
  else with_ipConnCount g (<[ip := u32_incr (ipConnCount_at g ip)]> (ipConnCount_ g)).

(** Modelled from the spec: util/Assert.hpp, which defines the [ASSERT]
    macro, is not among the sources. The spec calls a violated assertion a
    loud programming-error condition, never a silent clamp: the outcome of a
    member function that contains an [ASSERT] is either the state it leaves
    or the assertion failure with its message, after which there is no state
    to continue from. *)
Inductive asserted (A : Type) : Type :=
| Passed (a : A)
| AssertionFailed (message : string).
Arguments Passed {A} a.
Arguments AssertionFailed {A} message.

(** [DOSGuard::decrement]. The assertion reads [ipConnCount_[ip]], which is
    zero for an absent key. *)
Definition decrement (g : t) (ip : string) : asserted t :=
  if whitelistHandler_ g ip then Passed g
  else
    let count := ipConnCount_at g ip in
    if 0 <? count then
      let count' := u32_decr count in
      if count' =? 0 then Passed (with_ipConnCount g (delete ip (ipConnCount_ g)))
      else Passed (with_ipConnCount g (<[ip := count']> (ipConnCount_ g)))
    else AssertionFailed ("Connection count for ip " +:+ ip +:+ " can't be 0").

(** [DOSGuard::add]. *)
Definition add (g : t) (ip : string) (numObjects : N) : bool * t :=
  if whitelistHandler_ g ip then (true, g)
  else
    let st := ipState_at g ip in
    let st' := mkClientState (u32_add (transferedByte st) numObjects) (requestsCount st) in
    let g' := with_ipState g (<[ip := st']> (ipState_ g)) in
    (isOk g' ip, g').

(** [DOSGuard::request]. *)
Definition request (g : t) (ip : string) : bool * t :=
  if whitelistHandler_ g ip then (true, g)
  else
    let st := ipState_at g ip in
    let st' := mkClientState (transferedByte st) (u32_incr (requestsCount st)) in
    let g' := with_ipState g (<[ip := st']> (ipState_ g)) in
    (isOk g' ip, g').

(** [DOSGuard::clear]. *)
Definition clear (g : t) : t := with_ipState g ∅.

(** [n] consecutive [request(ip)] calls: the returned values, oldest first,
    and the final guard. *)
Fixpoint requests (n : nat) (g : t) (ip : string) : list bool * t :=
  match n with
  | O => ([], g)
  | S n' =>
      let '(ok, g1) := request g ip in
      let '(oks, g2) := requests n' g1 ip in
      (ok :: oks, g2)
  end.

(** The rejection condition in the words of the spec: one of the three
    counters of [ip], read as zero when [ip] has no entry, is above its
    threshold. *)
Definition over_limit (g : t) (ip : string) : Prop :=
  maxFetches_ g < transferedByte (ipState_at g ip)
  ∨ maxRequestCount_ g < requestsCount (ipState_at g ip)
  ∨ maxConnCount_ g < ipConnCount_at g ip.

(** Every stored connection count is positive and fits the 32 bits of the
    counter: [decrement] erases an entry rather than leave a zero. *)
Definition conn_counts_positive (g : t) : Prop :=
  ∀ ip c, ipConnCount_ g !! ip = Some c → 0 < c ∧ c < UINT32_MOD.

(** Two guards with the same configuration: the same whitelist handler and
    the same three limits. *)
Definition same_config (g g' : t) : Prop :=
  whitelistHandler_ g' = whitelistHandler_ g
  ∧ maxFetches_ g' = maxFetches_ g
  ∧ maxConnCount_ g' = maxConnCount_ g
  ∧ maxRequestCount_ g' = maxRequestCount_ g.

(** [n] consecutive [increment(ip)] calls. *)
Fixpoint increments (n : nat) (g : t) (ip : string) : t :=
  match n with
  | O => g
  | S n' => increment (increments n' g ip) ip
  end.

(** [n] consecutive [decrement(ip)] calls; nothing follows a failed
    assertion. *)
Fixpoint decrements (n : nat) (g : t) (ip : string) : asserted t :=
  match n with
  | O => Passed g
  | S n' =>
      match decrement g ip with
      | Passed g' => decrements n' g' ip
      | AssertionFailed message => AssertionFailed message
      end
  end.

(** The entries of client [ip] are the same in two guards. *)
Definition same_client (g g' : t) (ip : string) : Prop :=
  ipState_ g' !! ip = ipState_ g !! ip
  ∧ ipConnCount_ g' !! ip = ipConnCount_ g !! ip.

End DOSGuard.

(** ** LoadBalancer *)

Module LoadBalancer.

(** The answers of a source change over time: its connection is driven by its
    own reconnect logic, concurrently with the balancer. Every query to a
    source therefore carries the instant at which it is made. Inside the loops
    of [execute] and [forwardToRippled] the instant is the iteration number
    [numAttempts]: each iteration asks each question at most once. *)
Definition Instant := nat.

(** The [Source] interface as the balancer uses it. The declarations of
    [Source], of the gRPC response and status types and of the JSON type are
    not among the sources: they are the parameters of the model.
    [Response] is [RawDataType]; [response_default] is its default-constructed
    value. *)
Class SourceApi (Source : Type) := {
  Response : Type;
  Status : Type;
  Json : Type;
  response_default : Response;
  response_validated : Response → bool;
  status_ok : Status → bool;
  hasLedger : Instant → Source → N → bool;
  source_fetchLedger : Instant → Source → N → bool → bool → Status * Response;
  source_loadInitialLedger : Instant → Source → N → N → bool → list string * bool;
  source_forwardToRippled : Instant → Source → Json → string → option Json;
  isConnected : Instant → Source → bool;
  (** [Source::operator==] *)
  source_eqb : Source → Source → bool
}.

(** What a call does to the sources, in order. Sources are named by their
    position in [sources_]. *)
Inductive Event :=
| EvHasLedger (sourceIdx : nat) (present : bool)
| EvWorker (sourceIdx : nat) (res : bool)
| EvSleep
| EvForward (sourceIdx : nat) (nonempty : bool).

(** The positions of the sources a call forwarded the request to, in order. *)
Definition forwarded (tr : list Event) : list nat :=
  omap (λ ev, match ev with EvForward i _ => Some i | _ => None end) tr.

(** How a call ends. [DivisionByZero] is the evaluation of [x % 0];
    [OutOfRange] is [sources_[i]] with [i] past the end; both are undefined
    behaviour in C++. [OutOfFuel] means the loop was still running after the
    given number of iterations. *)
Inductive Outcome (A : Type) : Type :=
| Returned (a : A) (trace : list Event)
| DivisionByZero
| OutOfRange
| OutOfFuel.
Arguments Returned {A} a trace.
Arguments DivisionByZero {A}.
Arguments OutOfRange {A}.
Arguments OutOfFuel {A}.

(** The events [evs] happened before the rest of the run [o]. *)
Definition after {A} (evs : list Event) (o : Outcome A) : Outcome A :=
  match o with
  | Returned a tr => Returned a (evs ++ tr)
  | DivisionByZero => DivisionByZero
  | OutOfRange => OutOfRange
  | OutOfFuel => OutOfFuel
  end.

Definition outcome_map {A B} (g : A → B) (o : Outcome A) : Outcome B :=
  match o with
  | Returned a tr => Returned (g a) tr
  | DivisionByZero => DivisionByZero
  | OutOfRange => OutOfRange
  | OutOfFuel => OutOfFuel
  end.

Record t (Source : Type) := mk {
  downloadRanges_ : N;
  sources_ : list Source
}.
Arguments mk {Source} _ _.
Arguments downloadRanges_ {Source} _.
Arguments sources_ {Source} _.

(** The positions of the sources a call asked for the ledger, in order. *)
Definition consulted (tr : list Event) : list nat :=
  omap (λ ev, match ev with EvHasLedger i _ => Some i | _ => None end) tr.

(** The number of sleeps of a call. *)
Fixpoint sleeps (tr : list Event) : nat :=
  match tr with
  | [] => 0
  | EvSleep :: tr' => S (sleeps tr')
  | _ :: tr' => sleeps tr'
  end.

(** [std::clamp(v, lo, hi)]. *)
Definition clamp (v lo hi : N) : N :=
  if (v <? lo)%N then lo else if (hi <? v)%N then hi else v.

(** The constructor of [LoadBalancer]. [num_markers] is the optional value of
    the configuration key of that name, [has_ledger_range] says whether
    [backend->fetchLedgerRange()] is engaged, [etl_sources] is the configured
    array and [make_Source] builds and starts the source of one entry.
    [default_downloadRanges] is the default member initialiser of
    [downloadRanges_], declared in the header, which is not among the
    sources. *)
Definition LoadBalancer_new {Config Source : Type} (default_downloadRanges : N)
    (num_markers : option N) (has_ledger_range : bool)
    (etl_sources : list Config) (make_Source : Config → Source) : t Source :=
  let downloadRanges :=
    match num_markers with
    | Some value => clamp value 1 256
    | None => if has_ledger_range then 4%N else default_downloadRanges
    end in
  mk downloadRanges
     (fold_left (λ sources entry, sources ++ [make_Source entry]) etl_sources []).

Section Balancer.
Context {Source : Type} `{!SourceApi Source}.

(** *** [LoadBalancer::execute] *)

Section Execute.
(** [Func f] is any callable on a source. [Captured] is the state it captures
    by reference; the call returns its verdict and the new captured state. *)
Context {Captured : Type}.
Variable lb : t Source.
Variable f : Instant → Source → Captured → bool * Captured.
Variable ledgerSequence : N.

(** The sleep at the end of an iteration, taken after every full pass. *)
Definition sleep_after (numAttempts : nat) : list Event :=
  if numAttempts mod length (sources_ lb) =? 0 then [EvSleep] else [].

(** The body of [while (true)], [fuel] iterations at most. [numAttempts] is an
    [int] that only counts upwards from zero: the model keeps its exact value
    (the overflow of a signed integer has no defined result in C++). *)
Fixpoint execute_loop (fuel : nat) (sourceIdx numAttempts : nat) (st : Captured)
  : Outcome (bool * Captured) :=
  match fuel with
  | O => OutOfFuel
  | S fuel' =>
      match sources_ lb !! sourceIdx with
      | None => OutOfRange
      | Some source =>
          let sourceIdx' := (sourceIdx + 1) mod length (sources_ lb) in
          let numAttempts' := numAttempts + 1 in
          if hasLedger numAttempts source ledgerSequence then
            let '(res, st') := f numAttempts source st in
            if res then
              (* break; return true *)
              Returned (true, st') [EvHasLedger sourceIdx true; EvWorker sourceIdx true]
            else
              after ([EvHasLedger sourceIdx true; EvWorker sourceIdx false]
                       ++ sleep_after numAttempts')
                    (execute_loop fuel' sourceIdx' numAttempts' st')
          else
            after ([EvHasLedger sourceIdx false] ++ sleep_after numAttempts')
                  (execute_loop fuel' sourceIdx' numAttempts' st)
      end
  end.

(** [rand_value] is what [rand()] returns after the reseeding. *)
Definition execute (rand_value : nat) (fuel : nat) (st : Captured)
  : Outcome (bool * Captured) :=
  if length (sources_ lb) =? 0 then DivisionByZero
  else execute_loop fuel (rand_value mod length (sources_ lb)) 0 st.

End Execute.

(** *** [LoadBalancer::fetchLedger] *)

(** [DataType] is an optional [RawDataType]: [return response] yields the
    engaged optional and [return {}] the empty one. *)
Definition DataType := option Response.

(** The lambda passed to [execute]: [response] is captured by reference. *)
Definition fetchLedger_worker (ledgerSequence : N) (getObjects getObjectNeighbors : bool)
    (now : Instant) (source : Source) (response : Response) : bool * Response :=
  let '(status, data) :=
    source_fetchLedger now source ledgerSequence getObjects getObjectNeighbors in
  let response := data in
  if status_ok status && response_validated response then (true, response)
  else (false, response).

Definition fetchLedger (lb : t Source) (ledgerSequence : N)
    (getObjects getObjectNeighbors : bool) (rand_value fuel : nat) : Outcome DataType :=
  outcome_map
    (λ '(success, response), if success : bool then Some response else None)
    (execute lb (fetchLedger_worker ledgerSequence getObjects getObjectNeighbors)
             ledgerSequence rand_value fuel response_default).

(** *** [LoadBalancer::loadInitialLedger] *)

Definition loadInitialLedger_worker (lb : t Source) (sequence : N) (cacheOnly : bool)
    (now : Instant) (source : Source) (response : list string) : bool * list string :=
  let '(data, res) :=
    source_loadInitialLedger now source sequence (downloadRanges_ lb) cacheOnly in
  if negb res then (res, response) else (res, data).

Definition loadInitialLedger (lb : t Source) (sequence : N) (cacheOnly : bool)
    (rand_value fuel : nat) : Outcome (list string * bool) :=
  outcome_map
    (λ '(success, response), (response, success))
    (execute lb (loadInitialLedger_worker lb sequence cacheOnly) sequence
             rand_value fuel []).

(** *** [LoadBalancer::forwardToRippled] *)

Section Forward.
Variable lb : t Source.
Variable request : Json.
Variable clientIp : string.

(** The [while (numAttempts < sources_.size())] loop, [fuel] iterations at
    most. *)
Fixpoint forward_loop (fuel : nat) (sourceIdx numAttempts : nat) : Outcome (option Json) :=
  match fuel with
  | O => OutOfFuel
  | S fuel' =>
      if numAttempts <? length (sources_ lb) then
        match sources_ lb !! sourceIdx with
        | None => OutOfRange
        | Some source =>
            match source_forwardToRippled numAttempts source request clientIp with
            | Some res => Returned (Some res) [EvForward sourceIdx true]
            | None =>
                after [EvForward sourceIdx false]
                      (forward_loop fuel' ((sourceIdx + 1) mod length (sources_ lb))
                                    (numAttempts + 1))
            end
        end
      else Returned None []
  end.

Definition forwardToRippled (rand_value : nat) (fuel : nat) : Outcome (option Json) :=
  if length (sources_ lb) =? 0 then DivisionByZero
  else forward_loop fuel (rand_value mod length (sources_ lb)) 0.

End Forward.

(** *** [LoadBalancer::shouldPropagateTxnStream] *)

(** The range-for over [sources_]; [in_] is the candidate [*in]. *)
Fixpoint shouldPropagateTxnStream_from (now : Instant) (srcs : list Source) (in_ : Source)
  : bool :=
  match srcs with
  | [] => true
  | src :: rest =>
      if isConnected now src then source_eqb src in_
      else shouldPropagateTxnStream_from now rest in_
  end.

Definition shouldPropagateTxnStream (lb : t Source) (now : Instant) (in_ : Source) : bool :=
  shouldPropagateTxnStream_from now (sources_ lb) in_.

End Balancer.

(** A pool of three sources, each known by its number. Only source 2 has
    ledger 100, is connected and answers forwarded requests. A response is
    represented by its [validated] flag and a status by its [ok] flag. *)
Module Scenario.

Definition api : SourceApi nat := {|
  Response := bool;
  Status := bool;
  Json := string;
  response_default := false;
  response_validated := λ response, response;
  status_ok := λ status, status;
  hasLedger := λ _ source seq, (source =? 2) && (seq =? 100)%N;
  source_fetchLedger := λ _ source _ _ _, (source =? 2, source =? 2);
  source_loadInitialLedger := λ _ source _ _ _,
    if source =? 2 then (["object"], true) else ([], false);
  source_forwardToRippled := λ _ source request _,
    if source =? 2 then Some request else None;
  isConnected := λ _ source, source =? 2;
  source_eqb := Nat.eqb
|}.

Definition pool : t nat := mk 4 [0; 1; 2].

End Scenario.

End LoadBalancer.

(** ** Retry *)

Module Retry.

(** [std::chrono::steady_clock::duration]: a signed count of clock ticks. The
    clock ticks in nanoseconds. *)
Definition duration := Z.

Definition milliseconds (n : Z) : duration := (n * 1000000)%Z.

(** *** RetryStrategy *)

(** The base class with its two members. The pure virtual [nextDelay] is a
    field: it receives the current delay, which the override reads through
    [getDelay], and carries the members of the derived class with it. *)
Record RetryStrategy := mkRetryStrategy {
  initialDelay_ : duration;
  delay_ : duration;
  nextDelay : duration → duration
}.

(** Modelled from the spec: the constructor of [RetryStrategy], defined in
    Retry.cpp, which is not among the sources. The current delay starts at the
    initial delay. *)
Definition RetryStrategy_new (delay : duration) (next : duration → duration)
  : RetryStrategy :=
  mkRetryStrategy delay delay next.

(** Modelled from the spec: [RetryStrategy::getDelay], defined in Retry.cpp.
    It returns the current delay without advancing it. *)
Definition getDelay (s : RetryStrategy) : duration := delay_ s.

(** Modelled from the spec: [RetryStrategy::increaseDelay], defined in
    Retry.cpp. It is the explicit mutation step: the current delay becomes the
    next computed delay. *)
Definition increaseDelay (s : RetryStrategy) : RetryStrategy :=
  mkRetryStrategy (initialDelay_ s) (nextDelay s (getDelay s)) (nextDelay s).

(** Modelled from the spec: [RetryStrategy::reset], defined in Retry.cpp. The
    delay goes back to its initial value. *)
Definition strategy_reset (s : RetryStrategy) : RetryStrategy :=
  mkRetryStrategy (initialDelay_ s) (initialDelay_ s) (nextDelay s).

(** Modelled from the spec: [ExponentialBackoffStrategy::nextDelay], defined in
    Retry.cpp: the next delay is min(currentDelay * 2, maxDelay). *)
Definition ExponentialBackoffStrategy_nextDelay (maxDelay_ : duration)
    (currentDelay : duration) : duration :=
  Z.min (currentDelay * 2) maxDelay_.

(** Modelled from the spec: the constructor of [ExponentialBackoffStrategy],
    defined in Retry.cpp. *)
Definition ExponentialBackoffStrategy (delay maxDelay : duration) : RetryStrategy :=
  RetryStrategy_new delay (ExponentialBackoffStrategy_nextDelay maxDelay).

(** *** The timer and the Retry object *)

(** The completion code handed to a wait handler. *)
Inductive error_code :=
| success
| operation_aborted.

Section WithCallable.
(** [Fn]: the callables handed to [retry]. *)
Context {Fn : Type}.

(** What can be observed of a [Retry] from outside. *)
Inductive Event :=
| Armed (delay : duration)
| Invoked (func : Fn).

(** [boost::asio::steady_timer], as far as [Retry] uses it: the expiry it was
    last armed with and the outstanding asynchronous waits. Every wait on
    [timer_] is started by [retry], so a pending handler is the lambda of
    [retry] and is known by the callable it captured. *)
Record steady_timer := mkTimer {
  expiry : option duration;
  waits : list Fn
}.

(** The [Retry] object. [trace] is not a member of the class: it records, in
    order, the delays the timer was armed with and the callables that ran. *)
Record t := mk {
  strategy_ : RetryStrategy;
  timer_ : steady_timer;
  attemptNumber_ : N;
  trace : list Event
}.

(** The lambda that [retry] passes to [async_wait], run with completion code
    [ec]; [func] is the callable it captured. *)
Definition wait_handler (func : Fn) (ec : error_code) (r : t) : t :=
  match ec with
  | operation_aborted => r
  | success =>
      let r1 := mk (strategy_ r) (timer_ r) (size_t_incr (attemptNumber_ r)) (trace r) in
      mk (strategy_ r1) (timer_ r1) (attemptNumber_ r1) (trace r1 ++ [Invoked func])
  end.

(** Every outstanding wait completes with [ec]: the timer has no wait left
    and the handlers run in the order in which the waits were started. *)
Definition complete_waits (ec : error_code) (r : t) : t :=
  fold_left (λ r' func, wait_handler func ec r')
            (waits (timer_ r))
            (mk (strategy_ r) (mkTimer (expiry (timer_ r)) []) (attemptNumber_ r) (trace r)).

(** [timer_.expires_after(d)]: outstanding waits are cancelled, then the
    expiry is set. *)
Definition timer_expires_after (d : duration) (r : t) : t :=
  let r1 := complete_waits operation_aborted r in
  mk (strategy_ r1) (mkTimer (Some d) (waits (timer_ r1))) (attemptNumber_ r1)
     (trace r1 ++ [Armed d]).

(** [timer_.async_wait(handler)] where the handler captured [func]. *)
Definition timer_async_wait (func : Fn) (r : t) : t :=
  mk (strategy_ r) (mkTimer (expiry (timer_ r)) (waits (timer_ r) ++ [func]))
     (attemptNumber_ r) (trace r).

(** [timer_.cancel()]: the outstanding waits complete with
    [operation_aborted]. *)
Definition timer_cancel (r : t) : t := complete_waits operation_aborted r.

(** The expiry time is reached: the outstanding waits complete without
    error. *)
Definition timer_fires (r : t) : t := complete_waits success r.

(** [Retry::retry]. *)
Definition retry (func : Fn) (r : t) : t :=
  let r1 := timer_expires_after (getDelay (strategy_ r)) r in
  let r2 := mk (increaseDelay (strategy_ r1)) (timer_ r1) (attemptNumber_ r1) (trace r1) in
  timer_async_wait func r2.

(** Modelled from the spec: the constructor of [Retry], defined in Retry.cpp.
    Nothing is scheduled; [attemptNumber_] has its default member initialiser
    from Retry.hpp. *)
Definition Retry_new (strategy : RetryStrategy) : t :=
  mk strategy (mkTimer None []) 0 [].

(** Modelled from the spec: [Retry::cancel], defined in Retry.cpp. It cancels
    a pending timer if any. *)
Definition cancel (r : t) : t := timer_cancel r.

(** Modelled from the spec: [Retry::attemptNumber], defined in Retry.cpp. *)
Definition attemptNumber (r : t) : N := attemptNumber_ r.

(** Modelled from the spec: [Retry::delayValue], defined in Retry.cpp. *)
Definition delayValue (r : t) : duration := getDelay (strategy_ r).

(** Modelled from the spec: [Retry::reset], defined in Retry.cpp. It resets
    both the delay and the attempt counter to their initial values and does
    not cancel a pending timer. *)
Definition reset (r : t) : t :=
  mk (strategy_reset (strategy_ r)) (timer_ r) 0 (trace r).

(** Modelled from the spec: [makeRetryExponentialBackoff], defined in
    Retry.cpp. *)
Definition makeRetryExponentialBackoff (delay maxDelay : duration) : t :=
  Retry_new (ExponentialBackoffStrategy delay maxDelay).

(** Consecutive [retry] calls, one per callable, with nothing in between. *)
Definition retries (funcs : list Fn) (r : t) : t :=
  fold_left (λ r' func, retry func r') funcs r.

(** The delays the timer was armed with, oldest first. *)
Definition armed_delays (tr : list Event) : list duration :=
  omap (λ ev, match ev with Armed d => Some d | Invoked _ => None end) tr.

(** The callables that ran, oldest first. *)
Definition invoked (tr : list Event) : list Fn :=
  omap (λ ev, match ev with Invoked func => Some func | Armed _ => None end) tr.

(** [retry(func)] followed by the expiry of the timer it armed. *)
Definition retry_then_fire (func : Fn) (r : t) : t := timer_fires (retry func r).

(** One such cycle per callable, in order. *)
Definition retry_cycles (funcs : list Fn) (r : t) : t :=
  fold_left (λ r' func, retry_then_fire func r') funcs r.

End WithCallable.

Arguments Event : clear implicits.
Arguments steady_timer : clear implicits.
Arguments t : clear implicits.

(** A sequence of delays never goes down. *)
Definition nondecreasing (ds : list duration) : Prop :=
  ∀ i j di dj, (i ≤ j)%nat → ds !! i = Some di → ds !! j = Some dj → (di ≤ dj)%Z.

End Retry.

(** * Part II: properties *)

(** ** Machine integers *)

Lemma u32_incr_small (x : N) : (x + 1 < UINT32_MOD)%N → u32_incr x = (x + 1)%N.
Proof. intros H. unfold u32_incr. by rewrite N.mod_small. Qed.

Lemma u32_decr_pos (x : N) :
  (0 < x)%N → (x < UINT32_MOD)%N → u32_decr x = (x - 1)%N.
Proof.
  intros H0 H1. unfold u32_decr.
  replace (x + UINT32_MOD - 1)%N with ((x - 1) + 1 * UINT32_MOD)%N by lia.
  rewrite N.Div0.mod_add. apply N.mod_small. lia.
Qed.

Lemma u32_decr_range (x : N) : (u32_decr x < UINT32_MOD)%N.
Proof. unfold u32_decr. apply N.mod_lt. unfold UINT32_MOD. lia. Qed.

(** ** DOSGuard *)

Section DOSGuardProperties.
Import DOSGuard.
Local Open Scope N_scope.

Lemma isOk_whitelisted g ip : whitelistHandler_ g ip = true → isOk g ip = true.
Proof. intros H. unfold isOk. by rewrite H. Qed.

Lemma isOk_false_iff g ip :
  whitelistHandler_ g ip = false → isOk g ip = false ↔ over_limit g ip.
Proof.
  intros Hw. unfold isOk, over_limit, ipState_at, ipConnCount_at. rewrite Hw.
  destruct (ipState_ g !! ip) as [[tb rq]|]; simpl;
    destruct (ipConnCount_ g !! ip) as [c|]; simpl;
    repeat match goal with
           | |- context [(?a <? ?b)%N] => destruct (N.ltb_spec a b)
           end; simpl; split; try done; try lia; intros; try by eauto.
Qed.

(** One [request] of a client that is not whitelisted: the request counter of
    the client goes up by one and nothing else changes. *)
Lemma request_not_whitelisted g ip :
  whitelistHandler_ g ip = false →
  ∃ g', request g ip = (isOk g' ip, g')
        ∧ whitelistHandler_ g' = whitelistHandler_ g
        ∧ maxFetches_ g' = maxFetches_ g
        ∧ maxConnCount_ g' = maxConnCount_ g
        ∧ maxRequestCount_ g' = maxRequestCount_ g
        ∧ ipConnCount_ g' = ipConnCount_ g
        ∧ transferedByte (ipState_at g' ip) = transferedByte (ipState_at g ip)
        ∧ requestsCount (ipState_at g' ip) = u32_incr (requestsCount (ipState_at g ip)).
Proof.
  intros Hw. unfold request. rewrite Hw. eexists. split; [reflexivity|].
  unfold ipState_at, with_ipState; cbn. rewrite lookup_insert_eq. done.
Qed.

Lemma request_whitelisted g ip :
  whitelistHandler_ g ip = true → request g ip = (true, g).
Proof. intros Hw. unfold request. by rewrite Hw. Qed.

Lemma requests_whitelisted n g ip :
  whitelistHandler_ g ip = true → requests n g ip = (replicate n true, g).
Proof.
  intros Hw. induction n as [|n IH]; simpl; [done|].
  rewrite request_whitelisted by done. by rewrite IH.
Qed.

(** The verdicts of [n] consecutive requests of a client whose byte and
    connection counters are within their limits: the verdict of the [i]-th
    request only depends on the request counter it leaves. *)
Lemma requests_verdicts n : ∀ g ip,
  whitelistHandler_ g ip = false →
  transferedByte (ipState_at g ip) ≤ maxFetches_ g →
  ipConnCount_at g ip ≤ maxConnCount_ g →
  requestsCount (ipState_at g ip) + N.of_nat n < UINT32_MOD →
  (requests n g ip).1 =
    map (λ i, negb (maxRequestCount_ g <? requestsCount (ipState_at g ip) + N.of_nat i))
        (seq 1 n).
Proof.
  induction n as [|n IH]; intros g ip Hw Hb Hc Hr; [done|].
  destruct (request_not_whitelisted g ip Hw)
    as (g' & Hreq & Hw' & HmF & HmC & HmR & Hconn & Htb & Hrq).
  cbn [requests]. rewrite Hreq.
  specialize (IH g' ip).
  destruct (requests n g' ip) as [oks g2] eqn:Hrest. cbn [fst] in *.
  rewrite u32_incr_small in Hrq by lia.
  assert (Hat : ipConnCount_at g' ip = ipConnCount_at g ip).
  { unfold ipConnCount_at. by rewrite Hconn. }
  rewrite IH; [|by rewrite Hw'|rewrite Htb, HmF; done|rewrite Hat, HmC; done|rewrite Hrq; lia].
  cbn [seq map]. f_equal.
  - destruct (isOk g' ip) eqn:Hok.
    + symmetry. apply negb_true_iff. apply N.ltb_ge.
      destruct (N.le_gt_cases (requestsCount (ipState_at g ip) + N.of_nat 1) (maxRequestCount_ g))
        as [|Hgt]; [done|].
      assert (isOk g' ip = false); [|congruence].
      apply isOk_false_iff; [by rewrite Hw'|]. right; left. rewrite HmR, Hrq. lia.
    + symmetry. apply negb_false_iff. apply N.ltb_lt.
      apply isOk_false_iff in Hok; [|by rewrite Hw'].
      destruct Hok as [Hok|[Hok|Hok]].
      * rewrite Htb, HmF in Hok. lia.
      * rewrite HmR, Hrq in Hok. lia.
      * rewrite Hat, HmC in Hok. lia.
  - rewrite <- (seq_shift n 1), map_map. apply map_ext. intros i.
    rewrite HmR, Hrq. do 2 f_equal. lia.
Qed.

(** C3: for a client that is not whitelisted [isOk] returns false exactly when
    its transferred bytes, its request count or its connection count is above
    the configured maximum, the counters of an unseen client being read as
    zero; for a whitelisted client it returns true whatever the counters.
    With a maximum of 10 requests, eleven consecutive [request] calls of a
    client that is not whitelisted, has made no request yet and is within the
    byte and connection limits (an unseen client is) return true ten times
    and then false; a whitelisted client is admitted by any number of calls,
    which leave the guard, and so its counters, as they were. *)
Theorem isOk_admission_gates (g : DOSGuard.t) (ip : string) :
  (whitelistHandler_ g ip = false → (isOk g ip = false ↔ over_limit g ip))
  ∧ (whitelistHandler_ g ip = true →
       isOk g ip = true ∧ ∀ n, requests n g ip = (replicate n true, g))
  ∧ (whitelistHandler_ g ip = false →
       maxRequestCount_ g = 10 →
       requestsCount (ipState_at g ip) = 0 →
       transferedByte (ipState_at g ip) ≤ maxFetches_ g →
       ipConnCount_at g ip ≤ maxConnCount_ g →
       (requests 11 g ip).1 = replicate 10 true ++ [false]).
Proof.
  split; [apply isOk_false_iff|]. split.
  - intros Hw. split; [by apply isOk_whitelisted|].
    intros n. by apply requests_whitelisted.
  - intros Hw Hmax Hrq Hbytes Hconn.
    rewrite requests_verdicts; try done.
    + rewrite Hrq, Hmax. reflexivity.
    + rewrite Hrq. reflexivity.
Qed.

(** The count that [increment] stores fits the counter's 32 bits, so the range
    assumed of a stored count below holds of every count the guard writes. *)
Lemma increment_count_range (g : DOSGuard.t) (ip : string) :
  whitelistHandler_ g ip = false → ipConnCount_at (increment g ip) ip < UINT32_MOD.
Proof.
  intros Hw. unfold increment, ipConnCount_at, with_ipConnCount. rewrite Hw. cbn.
  rewrite lookup_insert_eq. cbn. apply N.mod_lt. unfold UINT32_MOD. lia.
Qed.

(** C8: for a client that is not whitelisted, [decrement] on a count that is
    zero or absent fails its assertion and hands back no guard; on a positive
    count it leaves the count one lower, never below zero, and the entry is
    gone when the count has reached zero; the entries of other clients and
    the request state are untouched. For a whitelisted client [increment] and
    [decrement] change nothing. *)
Theorem decrement_connection_count (g : DOSGuard.t) (ip : string) :
  (whitelistHandler_ g ip = false →
     (ipConnCount_at g ip = 0 → ∃ message, decrement g ip = AssertionFailed message)
     ∧ (0 < ipConnCount_at g ip → ipConnCount_at g ip < UINT32_MOD →
          ∃ g', decrement g ip = Passed g'
                ∧ Z.of_N (ipConnCount_at g' ip) = (Z.of_N (ipConnCount_at g ip) - 1)%Z
                ∧ (0 ≤ Z.of_N (ipConnCount_at g' ip))%Z
                ∧ (ipConnCount_at g' ip = 0 → ipConnCount_ g' !! ip = None)
                ∧ (0 < ipConnCount_at g' ip →
                     ipConnCount_ g' !! ip = Some (ipConnCount_at g' ip))
                ∧ (∀ ip', ip' ≠ ip → ipConnCount_ g' !! ip' = ipConnCount_ g !! ip')
                ∧ ipState_ g' = ipState_ g))
  ∧ (whitelistHandler_ g ip = true → increment g ip = g ∧ decrement g ip = Passed g).
Proof.
  split.
  - intros Hw. split.
    + intros Hz. unfold decrement. rewrite Hw, Hz. cbn. eauto.
    + intros Hpos Hrange. unfold decrement. rewrite Hw.
      remember (ipConnCount_at g ip) as c eqn:Hc.
      destruct (N.ltb_spec 0 c) as [_|]; [|lia].
      pose proof (u32_decr_pos _ Hpos Hrange) as Hdec. cbn zeta.
      destruct (N.eqb_spec (u32_decr c) 0) as [Hz|Hnz].
      * set (g' := with_ipConnCount g (delete ip (ipConnCount_ g))).
        assert (Hl : ipConnCount_ g' !! ip = None) by apply lookup_delete_eq.
        assert (Hat : ipConnCount_at g' ip = 0).
        { unfold ipConnCount_at. by rewrite Hl. }
        exists g'. rewrite Hat.
        repeat split; try first [done | lia].
        intros ip' Hne. subst g'. cbn. by rewrite lookup_delete_ne.
      * set (g' := with_ipConnCount g (<[ip := u32_decr c]> (ipConnCount_ g))).
        assert (Hl : ipConnCount_ g' !! ip = Some (u32_decr c)) by apply lookup_insert_eq.
        assert (Hat : ipConnCount_at g' ip = u32_decr c).
        { unfold ipConnCount_at. by rewrite Hl. }
        exists g'. rewrite Hat.
        repeat split; try first [done | lia].
        intros ip' Hne. subst g'. cbn. by rewrite lookup_insert_ne.
  - intros Hw. unfold increment, decrement. by rewrite Hw.
Qed.

(** C9: [clear] empties the per-client byte and request counters and leaves
    the connection counts, like the rest of the guard, unchanged. *)
Theorem clear_frame (g : DOSGuard.t) :
  ipState_ (clear g) = ∅
  ∧ (∀ ip, ipState_at (clear g) ip = ClientState_default)
  ∧ ipConnCount_ (clear g) = ipConnCount_ g
  ∧ (∀ ip, ipConnCount_at (clear g) ip = ipConnCount_at g ip)
  ∧ whitelistHandler_ (clear g) = whitelistHandler_ g
  ∧ maxFetches_ (clear g) = maxFetches_ g
  ∧ maxConnCount_ (clear g) = maxConnCount_ g
  ∧ maxRequestCount_ (clear g) = maxRequestCount_ g.
Proof.
  unfold clear, with_ipState, ipState_at, ipConnCount_at. cbn.
  repeat split; done.
Qed.

End DOSGuardProperties.

(** Witnesses of the DOSGuard theorems on a guard that allows 1000 bytes,
    2 connections and 10 requests and whitelists 10.0.0.1. *)

Lemma isOk_admission_gates_witness :
  ((DOSGuard.requests 11
      (DOSGuard.make (String.eqb "10.0.0.1") 1000 2 10) "192.168.0.7").1
   = replicate 10 true ++ [false])
  ∧ (DOSGuard.isOk (DOSGuard.make (String.eqb "10.0.0.1") 1000 2 10) "10.0.0.1" = true
     ∧ ∀ n, DOSGuard.requests n (DOSGuard.make (String.eqb "10.0.0.1") 1000 2 10) "10.0.0.1"
            = (replicate n true, DOSGuard.make (String.eqb "10.0.0.1") 1000 2 10))
  ∧ (DOSGuard.isOk (DOSGuard.make (String.eqb "10.0.0.1") 1000 2 10) "192.168.0.7" = false
     ↔ DOSGuard.over_limit (DOSGuard.make (String.eqb "10.0.0.1") 1000 2 10) "192.168.0.7").
Proof.
  split; [|split].
  - apply (proj2 (proj2 (isOk_admission_gates
                           (DOSGuard.make (String.eqb "10.0.0.1") 1000 2 10)
                           "192.168.0.7"))); first [reflexivity | by vm_compute].
  - apply (proj1 (proj2 (isOk_admission_gates
                           (DOSGuard.make (String.eqb "10.0.0.1") 1000 2 10)
                           "10.0.0.1"))); reflexivity.
  - apply (proj1 (isOk_admission_gates
                    (DOSGuard.make (String.eqb "10.0.0.1") 1000 2 10)
                    "192.168.0.7")); reflexivity.
Defined.

Lemma decrement_connection_count_witness :
  (∃ g', DOSGuard.decrement
           (DOSGuard.increment (DOSGuard.make (String.eqb "10.0.0.1") 1000 2 10)
                               "192.168.0.7")
           "192.168.0.7" = DOSGuard.Passed g'
         ∧ DOSGuard.ipConnCount_ g' !! "192.168.0.7" = None)
  ∧ (∃ message,
       DOSGuard.decrement (DOSGuard.make (String.eqb "10.0.0.1") 1000 2 10) "192.168.0.7"
       = DOSGuard.AssertionFailed message)
  ∧ DOSGuard.decrement (DOSGuard.make (String.eqb "10.0.0.1") 1000 2 10) "10.0.0.1"
    = DOSGuard.Passed (DOSGuard.make (String.eqb "10.0.0.1") 1000 2 10).
Proof.
  split; [|split].
  - destruct (proj2 (proj1 (decrement_connection_count
                              (DOSGuard.increment
                                 (DOSGuard.make (String.eqb "10.0.0.1") 1000 2 10)
                                 "192.168.0.7")
                              "192.168.0.7") eq_refl))
      as (g' & Hdec & Hcount & _ & Hgone & _); [reflexivity|reflexivity|].
    exists g'. split; [exact Hdec|]. apply Hgone.
    apply (inj Z.of_N). rewrite Hcount. reflexivity.
  - apply (proj1 (proj1 (decrement_connection_count
                           (DOSGuard.make (String.eqb "10.0.0.1") 1000 2 10)
                           "192.168.0.7") eq_refl)).
    reflexivity.
  - apply (proj2 (decrement_connection_count
                    (DOSGuard.make (String.eqb "10.0.0.1") 1000 2 10) "10.0.0.1")).
    reflexivity.
Defined.

(** ** LoadBalancer *)

Section LoadBalancerProperties.
Import LoadBalancer.
Context {Source : Type} `{!SourceApi Source}.

Lemma after_returned {A} (evs : list Event) (o : Outcome A) (a : A) (tr : list Event) :
  after evs o = Returned a tr → ∃ tr', o = Returned a tr' ∧ tr = evs ++ tr'.
Proof. destruct o; cbn; intros Heq; inversion Heq; subst; eauto. Qed.

(** *** The empty pool *)

(** C1: on a pool without sources [execute] evaluates
    [rand() % sources_.size()] with a zero divisor before it looks at any
    source, whatever the worker, the ledger sequence, the random value and the
    number of iterations allowed; so do [fetchLedger] and
    [loadInitialLedger], which go through it. No result is returned. *)
Theorem execute_empty_pool_divides_by_zero
    {Captured : Type} (f : Instant → Source → Captured → bool * Captured)
    (downloadRanges : N) (ledgerSequence : N) (getObjects getObjectNeighbors cacheOnly : bool)
    (rand_value fuel : nat) (st : Captured) :
  execute (mk downloadRanges []) f ledgerSequence rand_value fuel st = DivisionByZero
  ∧ fetchLedger (mk downloadRanges []) ledgerSequence getObjects getObjectNeighbors
                rand_value fuel = DivisionByZero
  ∧ loadInitialLedger (mk downloadRanges []) ledgerSequence cacheOnly rand_value fuel
    = DivisionByZero.
Proof. repeat split. Qed.

(** *** The result of [execute] *)

Lemma execute_loop_returns_true {Captured : Type} (lb : LoadBalancer.t Source)
    (f : Instant → Source → Captured → bool * Captured) (ledgerSequence : N) (fuel : nat) :
  ∀ sourceIdx numAttempts st b st' tr,
    execute_loop lb f ledgerSequence fuel sourceIdx numAttempts st = Returned (b, st') tr →
    b = true.
Proof.
  induction fuel as [|fuel IH]; intros sourceIdx numAttempts st b st' tr; cbn; [done|].
  destruct (sources_ lb !! sourceIdx) as [source|]; [|done].
  destruct (hasLedger numAttempts source ledgerSequence).
  - destruct (f numAttempts source st) as [[] st1].
    + intros Heq. by inversion Heq.
    + intros Heq. apply after_returned in Heq as (tr' & Heq & _). eauto.
  - intros Heq. apply after_returned in Heq as (tr' & Heq & _). eauto.
Qed.

Lemma execute_returns_true {Captured : Type} (lb : LoadBalancer.t Source)
    (f : Instant → Source → Captured → bool * Captured) (ledgerSequence : N)
    (rand_value fuel : nat) (st : Captured) (b : bool) (st' : Captured) (tr : list Event) :
  execute lb f ledgerSequence rand_value fuel st = Returned (b, st') tr → b = true.
Proof.
  unfold execute. destruct (length (sources_ lb) =? 0); [done|].
  apply execute_loop_returns_true.
Qed.

(** The response captured by the worker of [fetchLedger] is validated whenever
    the worker reports success. *)
Lemma execute_loop_fetchLedger_validated (lb : LoadBalancer.t Source)
    (ledgerSequence : N) (getObjects getObjectNeighbors : bool) (fuel : nat) :
  ∀ sourceIdx numAttempts st b response tr,
    execute_loop lb (fetchLedger_worker ledgerSequence getObjects getObjectNeighbors)
                 ledgerSequence fuel sourceIdx numAttempts st
    = Returned (b, response) tr →
    response_validated response = true.
Proof.
  induction fuel as [|fuel IH]; intros sourceIdx numAttempts st b response tr; cbn; [done|].
  destruct (sources_ lb !! sourceIdx) as [source|]; [|done].
  destruct (hasLedger numAttempts source ledgerSequence).
  - unfold fetchLedger_worker at 1.
    destruct (source_fetchLedger numAttempts source ledgerSequence getObjects
                                 getObjectNeighbors) as [status data].
    destruct (status_ok status && response_validated data) eqn:Hok.
    + intros Heq. inversion Heq; subst. by apply andb_true_iff in Hok as [_ ?].
    + intros Heq. apply after_returned in Heq as (tr' & Heq & _). eauto.
  - intros Heq. apply after_returned in Heq as (tr' & Heq & _). eauto.
Qed.

(** C10: when [execute] returns, it returns true; so the success flag of
    [loadInitialLedger] is true whenever it returns, and [fetchLedger] never
    returns the empty optional: what it returns is a validated response. *)
Theorem execute_only_returns_true (lb : LoadBalancer.t Source) (rand_value fuel : nat) :
  (∀ (Captured : Type) (f : Instant → Source → Captured → bool * Captured)
     (ledgerSequence : N) (st : Captured) (b : bool) (st' : Captured) (tr : list Event),
      execute lb f ledgerSequence rand_value fuel st = Returned (b, st') tr → b = true)
  ∧ (∀ (sequence : N) (cacheOnly : bool) (response : list string) (success : bool)
       (tr : list Event),
      loadInitialLedger lb sequence cacheOnly rand_value fuel = Returned (response, success) tr →
      success = true)
  ∧ (∀ (ledgerSequence : N) (getObjects getObjectNeighbors : bool) (data : DataType)
       (tr : list Event),
      fetchLedger lb ledgerSequence getObjects getObjectNeighbors rand_value fuel
      = Returned data tr →
      ∃ response, data = Some response ∧ response_validated response = true).
Proof.
  split; [|split].
  - intros Captured f ledgerSequence st b st' tr. apply execute_returns_true.
  - intros sequence cacheOnly response success tr. unfold loadInitialLedger.
    destruct (execute lb _ sequence rand_value fuel []) as [[b st'] tr'| | |] eqn:Hex;
      cbn; try done.
    intros Heq. inversion Heq; subst. by eapply execute_returns_true.
  - intros ledgerSequence getObjects getObjectNeighbors data tr. unfold fetchLedger.
    destruct (execute lb _ ledgerSequence rand_value fuel response_default)
      as [[b st'] tr'| | |] eqn:Hex; cbn; try done.
    intros Heq. inversion Heq; subst.
    pose proof (execute_returns_true _ _ _ _ _ _ _ _ _ Hex) as ->.
    exists st'. split; [done|].
    unfold execute in Hex. destruct (length (sources_ lb) =? 0); [done|].
    by eapply execute_loop_fetchLedger_validated.
Qed.

(** *** Termination of [execute] *)

Lemma sleep_after_no_worker (lb : LoadBalancer.t Source) (numAttempts j : nat) (b : bool) :
  EvWorker j b ∉ sleep_after lb numAttempts.
Proof.
  unfold sleep_after. destruct (_ =? 0); [|apply not_elem_of_nil].
  intros Hin. apply list_elem_of_singleton in Hin. discriminate.
Qed.

(** The loop standing at [sourceIdx] with [numAttempts] iterations behind it
    stops at the latest [t] iterations later, when by then it meets a source
    that has the ledger and on which the worker succeeds. *)
Lemma execute_loop_reaches_success {Captured : Type} (lb : LoadBalancer.t Source)
    (f : Instant → Source → Captured → bool * Captured) (ledgerSequence : N) :
  ∀ (t sourceIdx numAttempts : nat) (st : Captured) (src : Source),
    sourceIdx < length (sources_ lb) →
    sources_ lb !! ((sourceIdx + t) mod length (sources_ lb)) = Some src →
    hasLedger (numAttempts + t) src ledgerSequence = true →
    (∀ st0, (f (numAttempts + t) src st0).1 = true) →
    ∃ (t0 : nat) (st' : Captured) (tr0 : list Event) (i : nat),
      t0 ≤ t
      ∧ (∀ fuel, t0 < fuel →
           execute_loop lb f ledgerSequence fuel sourceIdx numAttempts st
           = Returned (true, st') (tr0 ++ [EvHasLedger i true; EvWorker i true]))
      ∧ (∀ j, EvWorker j true ∉ tr0).
Proof.
  intros t.
  induction t as [|t IH]; intros sourceIdx numAttempts st src Hidx Hsrc Hhas Hf.
  - rewrite Nat.add_0_r in *. rewrite Nat.mod_small in Hsrc by done.
    destruct (f numAttempts src st) as [res st1] eqn:Hfst.
    pose proof (Hf st) as Hres. rewrite Hfst in Hres. cbn in Hres. subst res.
    exists 0, st1, [], sourceIdx. split; [done|]. split; [|intros j; apply not_elem_of_nil].
    intros [|fuel] Hfuel; [lia|]. cbn. by rewrite Hsrc, Hhas, Hfst.
  - destruct (lookup_lt_is_Some_2 _ _ Hidx) as [s0 Hs0].
    assert (Hn : length (sources_ lb) ≠ 0) by lia.
    assert (Hidx' : (sourceIdx + 1) mod length (sources_ lb) < length (sources_ lb))
      by (by apply Nat.mod_upper_bound).
    assert (Hsrc' : sources_ lb !! (((sourceIdx + 1) mod length (sources_ lb) + t)
                                     mod length (sources_ lb)) = Some src).
    { rewrite Nat.Div0.add_mod_idemp_l.
      by replace (sourceIdx + 1 + t) with (sourceIdx + S t) by lia. }
    assert (Hhas' : hasLedger (numAttempts + 1 + t) src ledgerSequence = true).
    { by replace (numAttempts + 1 + t) with (numAttempts + S t) by lia. }
    assert (Hf' : ∀ st0, (f (numAttempts + 1 + t) src st0).1 = true).
    { by replace (numAttempts + 1 + t) with (numAttempts + S t) by lia. }
    destruct (hasLedger numAttempts s0 ledgerSequence) eqn:Hhas0.
    + destruct (f numAttempts s0 st) as [[] st1] eqn:Hfst.
      * exists 0, st1, [], sourceIdx. split; [lia|].
        split; [|intros j; apply not_elem_of_nil].
        intros [|fuel] Hfuel; [lia|]. cbn. by rewrite Hs0, Hhas0, Hfst.
      * destruct (IH _ (numAttempts + 1) st1 src Hidx' Hsrc' Hhas' Hf')
          as (t0 & st' & tr0 & i & Hle & Hrun & Hnone).
        exists (S t0), st',
          (([EvHasLedger sourceIdx true; EvWorker sourceIdx false]
              ++ sleep_after lb (numAttempts + 1)) ++ tr0), i.
        split; [lia|]. split.
        -- intros [|fuel] Hfuel; [lia|]. cbn [execute_loop].
           rewrite Hs0, Hhas0, Hfst, Hrun by lia. cbn [after].
           by rewrite <- !app_assoc.
        -- intros j Hin. rewrite !elem_of_app in Hin.
           destruct Hin as [[Hin|Hin]|Hin].
           ++ rewrite !elem_of_cons in Hin.
              destruct Hin as [Hin|[Hin|Hin]]; try discriminate.
              by apply elem_of_nil in Hin.
           ++ by apply sleep_after_no_worker in Hin.
           ++ by apply Hnone in Hin.
    + destruct (IH _ (numAttempts + 1) st src Hidx' Hsrc' Hhas' Hf')
        as (t0 & st' & tr0 & i & Hle & Hrun & Hnone).
      exists (S t0), st',
        (([EvHasLedger sourceIdx false] ++ sleep_after lb (numAttempts + 1)) ++ tr0), i.
      split; [lia|]. split.
      * intros [|fuel] Hfuel; [lia|]. cbn [execute_loop].
        rewrite Hs0, Hhas0, Hrun by lia. cbn [after].
        by rewrite <- !app_assoc.
      * intros j Hin. rewrite !elem_of_app in Hin.
        destruct Hin as [[Hin|Hin]|Hin].
        -- rewrite !elem_of_cons in Hin.
           destruct Hin as [Hin|Hin]; try discriminate.
           by apply elem_of_nil in Hin.
        -- by apply sleep_after_no_worker in Hin.
        -- by apply Hnone in Hin.
Qed.

(** X12: A source of the pool that, from the iteration [T] on, reports the ledger
    and lets the worker succeed is reached in the pass that begins at
    iteration [T * n], whatever the starting index: [execute] returns true
    before iteration [(T + 1) * n]. With [T = 0] this is one pass. *)
Lemma execute_terminates_once_ready {Captured : Type} (lb : LoadBalancer.t Source)
    (f : Instant → Source → Captured → bool * Captured) (ledgerSequence : N)
    (rand_value : nat) (st : Captured) (T i : nat) (src : Source) :
  sources_ lb !! i = Some src →
  (∀ t, T ≤ t → hasLedger t src ledgerSequence = true ∧ ∀ st0, (f t src st0).1 = true) →
  ∃ (t0 : nat) (st' : Captured) (tr0 : list Event) (i' : nat),
    t0 < (T + 1) * length (sources_ lb)
    ∧ (∀ fuel, t0 < fuel →
         execute lb f ledgerSequence rand_value fuel st
         = Returned (true, st') (tr0 ++ [EvHasLedger i' true; EvWorker i' true]))
    ∧ (∀ j, EvWorker j true ∉ tr0).
Proof.
  intros Hi Hready.
  pose proof (lookup_lt_Some _ _ _ Hi) as Hlt.
  set (n := length (sources_ lb)) in *.
  assert (Hn : n ≠ 0) by lia.
  set (t := T * n + (i + n - rand_value mod n) mod n).
  assert (Hmod : (i + n - rand_value mod n) mod n < n) by (by apply Nat.mod_upper_bound).
  assert (Hr : rand_value mod n < n) by (by apply Nat.mod_upper_bound).
  assert (Hpos : (rand_value mod n + t) mod n = i).
  { unfold t.
    replace (rand_value mod n + (T * n + (i + n - rand_value mod n) mod n))
      with ((rand_value mod n + (i + n - rand_value mod n) mod n) + T * n) by lia.
    rewrite Nat.Div0.mod_add, Nat.Div0.add_mod_idemp_r.
    replace (rand_value mod n + (i + n - rand_value mod n)) with (i + 1 * n) by lia.
    rewrite Nat.Div0.mod_add. by apply Nat.mod_small. }
  assert (HT : T ≤ t) by (unfold t; nia).
  destruct (Hready t HT) as [Hhas Hf].
  destruct (execute_loop_reaches_success lb f ledgerSequence t (rand_value mod n) 0 st src)
    as (t0 & st' & tr0 & i' & Hle & Hrun & Hnone);
    [exact Hr|rewrite <- Hpos in Hi; exact Hi|done|done|].
  exists t0, st', tr0, i'. split; [unfold t in Hle; nia|]. split; [|done].
  intros fuel Hfuel. unfold execute. fold n.
  rewrite (proj2 (Nat.eqb_neq _ _) Hn). by apply Hrun.
Qed.

(** C2: take a pool that is not empty and a worker, and suppose that at some
    iteration [t] the loop of [execute] stands at a source that reports the
    ledger and on which the worker succeeds. Then [execute] returns true after
    at most [t + 1] iterations, whatever the number of iterations it is
    allowed beyond that, and the successful worker call ends the run: no
    other worker call succeeded before it and no source is asked anything
    after it. *)
Theorem execute_terminates_on_first_success {Captured : Type} (lb : LoadBalancer.t Source)
    (f : Instant → Source → Captured → bool * Captured) (ledgerSequence : N)
    (rand_value : nat) (st : Captured) (t : nat) (src : Source) :
  sources_ lb ≠ [] →
  sources_ lb !! ((rand_value + t) mod length (sources_ lb)) = Some src →
  hasLedger t src ledgerSequence = true →
  (∀ st0, (f t src st0).1 = true) →
  ∃ (t0 : nat) (st' : Captured) (tr0 : list Event) (i : nat),
    t0 ≤ t
    ∧ (∀ fuel, t0 < fuel →
         execute lb f ledgerSequence rand_value fuel st
         = Returned (true, st') (tr0 ++ [EvHasLedger i true; EvWorker i true]))
    ∧ (∀ j, EvWorker j true ∉ tr0).
Proof.
  intros Hne Hsrc Hhas Hf.
  assert (Hn : length (sources_ lb) ≠ 0) by (by destruct (sources_ lb)).
  unfold execute. rewrite (proj2 (Nat.eqb_neq _ _) Hn).
  apply (execute_loop_reaches_success lb f ledgerSequence t _ 0 st src).
  - by apply Nat.mod_upper_bound.
  - by rewrite Nat.Div0.add_mod_idemp_l.
  - done.
  - done.
Qed.

(** *** One pass of [forwardToRippled] *)

Lemma round_robin_inj (n r j1 j2 : nat) :
  j1 < n → j2 < n → (r + j1) mod n = (r + j2) mod n → j1 = j2.
Proof.
  intros H1 H2 Heq.
  pose proof (Nat.div_mod_eq (r + j1) n) as E1.
  pose proof (Nat.div_mod_eq (r + j2) n) as E2.
  rewrite Heq in E1.
  generalize dependent ((r + j2) mod n). intros m _ E1 E2.
  generalize dependent ((r + j1) `div` n). intros q1 E1.
  generalize dependent ((r + j2) `div` n). intros q2 E2.
  destruct (Nat.lt_trichotomy q1 q2) as [Hq|[Hq|Hq]]; nia.
Qed.

Lemma round_robin_NoDup (n r k : nat) :
  k ≤ n → NoDup (map (λ j, (r + j) mod n) (seq 0 k)).
Proof.
  intros Hk. apply NoDup_ListNoDup.
  apply NoDup_map_NoDup_ForallPairs; [|apply List.seq_NoDup].
  intros j1 j2 Hj1 Hj2. apply in_seq in Hj1, Hj2.
  apply round_robin_inj; lia.
Qed.

Lemma forwarded_empty_results (g : nat → nat) (js : list nat) :
  forwarded (map (λ j, EvForward (g j) false) js) = map g js.
Proof. induction js as [|j js IH]; [done|]. cbn. by rewrite <- IH. Qed.

Lemma forwarded_singleton (i : nat) (b : bool) : forwarded [EvForward i b] = [i].
Proof. reflexivity. Qed.

Lemma forwarded_app (tr1 tr2 : list Event) :
  forwarded (tr1 ++ tr2) = forwarded tr1 ++ forwarded tr2.
Proof. apply omap_app. Qed.

(** The loop with [numAttempts] iterations behind it and [d] to go. *)
Lemma forward_loop_pass (lb : LoadBalancer.t Source) (request : Json) (clientIp : string)
    (r : nat) :
  ∀ (d numAttempts fuel : nat),
    numAttempts + d = length (sources_ lb) →
    d < fuel →
    ∃ (k : nat),
      k ≤ d
      ∧ (∀ j, numAttempts ≤ j < numAttempts + k →
           ∃ src, sources_ lb !! ((r + j) mod length (sources_ lb)) = Some src
                  ∧ source_forwardToRippled j src request clientIp = None)
      ∧ ((k = d
          ∧ forward_loop lb request clientIp fuel
                         ((r + numAttempts) mod length (sources_ lb)) numAttempts
            = Returned None
                (map (λ j, EvForward ((r + j) mod length (sources_ lb)) false)
                     (seq numAttempts k)))
         ∨ (k < d
            ∧ ∃ src res,
                sources_ lb !! ((r + (numAttempts + k)) mod length (sources_ lb)) = Some src
                ∧ source_forwardToRippled (numAttempts + k) src request clientIp = Some res
                ∧ forward_loop lb request clientIp fuel
                               ((r + numAttempts) mod length (sources_ lb)) numAttempts
                  = Returned (Some res)
                      (map (λ j, EvForward ((r + j) mod length (sources_ lb)) false)
                           (seq numAttempts k)
                       ++ [EvForward ((r + (numAttempts + k)) mod length (sources_ lb))
                                     true]))).
Proof.
  induction d as [|d IH]; intros numAttempts fuel Hsum Hfuel;
    (destruct fuel as [|fuel]; [lia|]).
  - exists 0. split; [done|]. split; [intros j Hj; lia|]. left. split; [done|].
    cbn [forward_loop seq map]. by rewrite (proj2 (Nat.ltb_ge _ _)) by lia.
  - assert (Hn : length (sources_ lb) ≠ 0) by lia.
    cbn [forward_loop]. rewrite (proj2 (Nat.ltb_lt _ _)) by lia.
    destruct (lookup_lt_is_Some_2 (sources_ lb) ((r + numAttempts) mod length (sources_ lb)))
      as [src Hsrc]; [by apply Nat.mod_upper_bound|].
    rewrite Hsrc.
    destruct (source_forwardToRippled numAttempts src request clientIp) as [res|] eqn:Hfwd.
    + exists 0. split; [lia|]. split; [intros j Hj; lia|]. right. split; [lia|].
      exists src, res. rewrite Nat.add_0_r. by cbn.
    + destruct (IH (numAttempts + 1) fuel) as (k & Hk & Hempty & Hend); [lia..|].
      rewrite Nat.Div0.add_mod_idemp_l, <- Nat.add_assoc.
      exists (S k). split; [lia|]. split.
      * intros j Hj. destruct (decide (j = numAttempts)) as [->|Hne]; [by eauto|].
        apply Hempty. lia.
      * replace (numAttempts + S k) with (numAttempts + 1 + k) by lia.
        cbn [seq map]. replace (S numAttempts) with (numAttempts + 1) by lia.
        destruct Hend as [[-> Hrun]|(Hlt & src' & res & Hsrc' & Hfwd' & Hrun)].
        -- left. split; [done|]. by rewrite Hrun.
        -- right. split; [lia|]. exists src', res. by rewrite Hrun.
Qed.

(** C5: on a pool of [n] sources, [n] not zero, [forwardToRippled] returns
    within [n] iterations. It forwards the request to the sources at
    positions [rand() % n], [rand() % n + 1], ... taken modulo [n], each at
    most once, and does nothing else: it never asks for a ledger and never
    sleeps. It returns the first result that is not empty and forwards no
    further; when all [n] results are empty it returns the empty optional. *)
Theorem forwardToRippled_single_pass (lb : LoadBalancer.t Source) (request : Json)
    (clientIp : string) (rand_value fuel : nat) :
  sources_ lb ≠ [] →
  length (sources_ lb) < fuel →
  ∃ (k : nat) (res : option Json) (tr : list Event),
    forwardToRippled lb request clientIp rand_value fuel = Returned res tr
    ∧ (∀ j, j < k →
         ∃ src, sources_ lb !! ((rand_value + j) mod length (sources_ lb)) = Some src
                ∧ source_forwardToRippled j src request clientIp = None)
    ∧ ((k = length (sources_ lb)
        ∧ res = None
        ∧ tr = map (λ j, EvForward ((rand_value + j) mod length (sources_ lb)) false)
                   (seq 0 k))
       ∨ (k < length (sources_ lb)
          ∧ ∃ src v,
              sources_ lb !! ((rand_value + k) mod length (sources_ lb)) = Some src
              ∧ source_forwardToRippled k src request clientIp = Some v
              ∧ res = Some v
              ∧ tr = map (λ j, EvForward ((rand_value + j) mod length (sources_ lb)) false)
                         (seq 0 k)
                     ++ [EvForward ((rand_value + k) mod length (sources_ lb)) true]))
    ∧ NoDup (forwarded tr)
    ∧ length (forwarded tr) = length tr
    ∧ length tr ≤ length (sources_ lb).
Proof.
  intros Hne Hfuel.
  assert (Hn : length (sources_ lb) ≠ 0) by (by destruct (sources_ lb)).
  unfold forwardToRippled. rewrite (proj2 (Nat.eqb_neq _ _) Hn).
  destruct (forward_loop_pass lb request clientIp rand_value (length (sources_ lb)) 0 fuel)
    as (k & Hk & Hempty & Hend); [done..|].
  rewrite Nat.add_0_r in Hend. cbn [Nat.add] in Hend.
  destruct Hend as [[-> Hrun]|(Hlt & src & v & Hsrc & Hfwd & Hrun)].
  - eexists (length (sources_ lb)), None, _. split; [exact Hrun|].
    split; [intros j Hj; apply Hempty; lia|]. split; [by left|].
    rewrite forwarded_empty_results, !length_map, length_seq.
    split; [by apply round_robin_NoDup|]. done.
  - eexists k, (Some v), _. split; [exact Hrun|].
    split; [intros j Hj; apply Hempty; lia|]. split; [right; by eauto 10|].
    rewrite forwarded_app, forwarded_empty_results, forwarded_singleton.
    rewrite !length_app, !length_map, length_seq. cbn [length].
    split; [|lia].
    pose proof (round_robin_NoDup (length (sources_ lb)) rand_value (S k)) as Hnd.
    rewrite seq_S, map_app in Hnd. apply Hnd. lia.
Qed.

(** *** The source whose transaction stream is propagated *)

Lemma shouldPropagateTxnStream_from_first (now : Instant) (in_ : Source) :
  ∀ (srcs : list Source) (i : nat) (src : Source),
    srcs !! i = Some src →
    isConnected now src = true →
    (∀ j src', j < i → srcs !! j = Some src' → isConnected now src' = false) →
    shouldPropagateTxnStream_from now srcs in_ = source_eqb src in_.
Proof.
  induction srcs as [|s0 srcs IH]; intros i src Hi Hconn Hbefore; [done|].
  destruct i as [|i]; cbn in *.
  - inversion Hi; subst. by rewrite Hconn.
  - rewrite (Hbefore 0 s0) by (done || lia).
    apply (IH i); [done|done|].
    intros j src' Hj Hlook. apply (Hbefore (S j)); [lia|done].
Qed.

Lemma shouldPropagateTxnStream_from_none (now : Instant) (in_ : Source) :
  ∀ srcs : list Source,
    (∀ src, src ∈ srcs → isConnected now src = false) →
    shouldPropagateTxnStream_from now srcs in_ = true.
Proof.
  induction srcs as [|s0 srcs IH]; intros Hnone; [done|]. cbn.
  rewrite Hnone by set_solver. apply IH. intros src Hin. apply Hnone. set_solver.
Qed.

Lemma shouldPropagateTxnStream_from_ext (now later : Instant) (in_ : Source) :
  ∀ srcs : list Source,
    (∀ src, src ∈ srcs → isConnected later src = isConnected now src) →
    shouldPropagateTxnStream_from later srcs in_ = shouldPropagateTxnStream_from now srcs in_.
Proof.
  induction srcs as [|s0 srcs IH]; intros Hsame; [done|]. cbn.
  rewrite Hsame by set_solver. rewrite IH; [done|].
  intros src Hin. apply Hsame. set_solver.
Qed.

(** C4: [shouldPropagateTxnStream] answers, for a candidate, whether the first
    connected source in the order of [sources_] equals it; it answers true
    when no source is connected. So when exactly one source is connected the
    answer is true exactly for the candidates equal to that source, and two
    calls between which no source of the pool changed its connectivity give
    the same answer. *)
Theorem shouldPropagateTxnStream_first_connected
    (lb : LoadBalancer.t Source) (now : Instant) (in_ : Source) :
  (∀ i src,
      sources_ lb !! i = Some src →
      isConnected now src = true →
      (∀ j src', j < i → sources_ lb !! j = Some src' → isConnected now src' = false) →
      (shouldPropagateTxnStream lb now in_ = true ↔ source_eqb src in_ = true))
  ∧ ((∀ src, src ∈ sources_ lb → isConnected now src = false) →
       shouldPropagateTxnStream lb now in_ = true)
  ∧ (∀ i src,
       sources_ lb !! i = Some src →
       isConnected now src = true →
       (∀ j src', j ≠ i → sources_ lb !! j = Some src' → isConnected now src' = false) →
       (shouldPropagateTxnStream lb now in_ = true ↔ source_eqb src in_ = true))
  ∧ (∀ later,
       (∀ src, src ∈ sources_ lb → isConnected later src = isConnected now src) →
       shouldPropagateTxnStream lb later in_ = shouldPropagateTxnStream lb now in_).
Proof.
  unfold shouldPropagateTxnStream. split; [|split; [|split]].
  - intros i src Hi Hconn Hbefore.
    by rewrite (shouldPropagateTxnStream_from_first now in_ _ i src).
  - apply shouldPropagateTxnStream_from_none.
  - intros i src Hi Hconn Hothers.
    rewrite (shouldPropagateTxnStream_from_first now in_ _ i src); [done..|].
    intros j src' Hlt. apply Hothers. lia.
  - intros later. apply shouldPropagateTxnStream_from_ext.
Qed.

End LoadBalancerProperties.

(** Witnesses of the LoadBalancer theorems on the pool of
    [LoadBalancer.Scenario]: three sources of which only source 2 has ledger
    100. With [rand()] returning 7 the loops start at source 1. *)

Lemma execute_terminates_on_first_success_witness :
  ∃ (t0 : nat) (st' : bool) (tr0 : list LoadBalancer.Event) (i : nat),
    t0 ≤ 1
    ∧ (∀ fuel, t0 < fuel →
         @LoadBalancer.execute nat LoadBalancer.Scenario.api bool LoadBalancer.Scenario.pool
           (@LoadBalancer.fetchLedger_worker nat LoadBalancer.Scenario.api 100%N true false)
           100%N 7 fuel false
         = LoadBalancer.Returned (true, st')
             (tr0 ++ [LoadBalancer.EvHasLedger i true; LoadBalancer.EvWorker i true]))
    ∧ (∀ j, LoadBalancer.EvWorker j true ∉ tr0).
Proof.
  apply (@execute_terminates_on_first_success nat LoadBalancer.Scenario.api bool
           LoadBalancer.Scenario.pool
           (@LoadBalancer.fetchLedger_worker nat LoadBalancer.Scenario.api 100%N true false)
           100%N 7 false 1 2).
  - discriminate.
  - reflexivity.
  - reflexivity.
  - intros st0. reflexivity.
Defined.

Lemma execute_only_returns_true_witness :
  (∃ response,
     Some true = Some response
     ∧ @LoadBalancer.response_validated nat LoadBalancer.Scenario.api response = true)
  ∧ true = true.
Proof.
  split.
  - apply (proj2 (proj2 (@execute_only_returns_true nat LoadBalancer.Scenario.api
                           LoadBalancer.Scenario.pool 7 5))
             100%N true false (Some true)
             [LoadBalancer.EvHasLedger 1 false; LoadBalancer.EvHasLedger 2 true;
              LoadBalancer.EvWorker 2 true]).
    reflexivity.
  - apply (proj1 (proj2 (@execute_only_returns_true nat LoadBalancer.Scenario.api
                           LoadBalancer.Scenario.pool 7 5))
             100%N false ["object"] true
             [LoadBalancer.EvHasLedger 1 false; LoadBalancer.EvHasLedger 2 true;
              LoadBalancer.EvWorker 2 true]).
    reflexivity.
Defined.

Lemma forwardToRippled_single_pass_witness :
  ∃ (k : nat) (res : option string) (tr : list LoadBalancer.Event),
    @LoadBalancer.forwardToRippled nat LoadBalancer.Scenario.api LoadBalancer.Scenario.pool
      "ping" "192.168.0.7" 7 4
    = LoadBalancer.Returned res tr
    ∧ k ≤ 3 ∧ NoDup (LoadBalancer.forwarded tr) ∧ length tr ≤ 3.
Proof.
  destruct (@forwardToRippled_single_pass nat LoadBalancer.Scenario.api
              LoadBalancer.Scenario.pool "ping" "192.168.0.7" 7 4)
    as (k & res & tr & Hrun & _ & Hend & Hnodup & _ & Hlen).
  - discriminate.
  - cbn. lia.
  - exists k, res, tr. split; [exact Hrun|]. split; [|split; [exact Hnodup|exact Hlen]].
    destruct Hend as [(-> & _)|(Hk & _)]; cbn in *; lia.
Defined.

Lemma shouldPropagateTxnStream_first_connected_witness :
  (@LoadBalancer.shouldPropagateTxnStream nat LoadBalancer.Scenario.api
     LoadBalancer.Scenario.pool 0 2 = true
   ↔ @LoadBalancer.source_eqb nat LoadBalancer.Scenario.api 2 2 = true)
  ∧ @LoadBalancer.shouldPropagateTxnStream nat LoadBalancer.Scenario.api
      (LoadBalancer.mk 4 [0; 1]) 0 1 = true
  ∧ @LoadBalancer.shouldPropagateTxnStream nat LoadBalancer.Scenario.api
      LoadBalancer.Scenario.pool 5 1
    = @LoadBalancer.shouldPropagateTxnStream nat LoadBalancer.Scenario.api
        LoadBalancer.Scenario.pool 0 1.
Proof.
  split; [|split].
  - apply (proj1 (proj2 (proj2 (@shouldPropagateTxnStream_first_connected
                                  nat LoadBalancer.Scenario.api
                                  LoadBalancer.Scenario.pool 0 2))) 2 2).
    + reflexivity.
    + reflexivity.
    + intros [|[|[|j]]] src' Hne Hlook; cbn in Hlook; inversion Hlook; subst;
        first [reflexivity | congruence].
  - apply (proj1 (proj2 (@shouldPropagateTxnStream_first_connected
                           nat LoadBalancer.Scenario.api (LoadBalancer.mk 4 [0; 1]) 0 1))).
    intros src Hin. cbn in Hin.
    apply elem_of_cons in Hin as [->|Hin]; [reflexivity|].
    apply elem_of_cons in Hin as [->|Hin]; [reflexivity|].
    by apply elem_of_nil in Hin.
  - apply (proj2 (proj2 (proj2 (@shouldPropagateTxnStream_first_connected
                                  nat LoadBalancer.Scenario.api
                                  LoadBalancer.Scenario.pool 0 1))) 5).
    intros src Hin. reflexivity.
Defined.

(** ** Retry *)

Section RetryProperties.
Import Retry.
Local Open Scope Z_scope.

Lemma fold_wait_handler_aborted {Fn : Type} (funcs : list Fn) (r : Retry.t Fn) :
  fold_left (λ r' func, wait_handler func operation_aborted r') funcs r = r.
Proof. revert r. induction funcs as [|func funcs IH]; intros r; [done|]. cbn. apply IH. Qed.

(** Waits that complete with [operation_aborted] leave everything but the
    list of outstanding waits as it was. *)
Lemma complete_waits_aborted {Fn : Type} (r : Retry.t Fn) :
  complete_waits operation_aborted r
  = Retry.mk (strategy_ r) (mkTimer (expiry (timer_ r)) []) (attemptNumber_ r) (trace r).
Proof. unfold complete_waits. apply fold_wait_handler_aborted. Qed.

Lemma retry_state {Fn : Type} (func : Fn) (r : Retry.t Fn) :
  retry func r
  = Retry.mk (increaseDelay (strategy_ r))
             (mkTimer (Some (getDelay (strategy_ r))) [func])
             (attemptNumber_ r)
             (trace r ++ [Armed (getDelay (strategy_ r))]).
Proof.
  unfold retry, timer_async_wait, timer_expires_after.
  rewrite complete_waits_aborted. reflexivity.
Qed.

(** When the timer armed by [retry] expires, the attempt is counted and the
    callable runs. *)
Lemma retry_timer_fires {Fn : Type} (func : Fn) (r : Retry.t Fn) :
  attemptNumber (timer_fires (retry func r)) = size_t_incr (attemptNumber r)
  ∧ trace (timer_fires (retry func r))
    = trace r ++ [Armed (delayValue r)] ++ [Invoked func].
Proof.
  rewrite retry_state. unfold timer_fires, complete_waits. cbn.
  split; [done|]. by rewrite <- app_assoc.
Qed.

Lemma armed_delays_app {Fn : Type} (tr1 tr2 : list (Event Fn)) :
  armed_delays (tr1 ++ tr2) = armed_delays tr1 ++ armed_delays tr2.
Proof. apply omap_app. Qed.

Lemma invoked_app {Fn : Type} (tr1 tr2 : list (Event Fn)) :
  invoked (tr1 ++ tr2) = invoked tr1 ++ invoked tr2.
Proof. apply omap_app. Qed.

Lemma armed_delays_armed {Fn : Type} (g : nat → duration) (l : list nat) :
  armed_delays (map (λ i, @Armed Fn (g i)) l) = map g l.
Proof. induction l as [|i l IH]; [done|]. cbn. by rewrite <- IH. Qed.

Lemma invoked_armed {Fn : Type} (g : nat → duration) (l : list nat) :
  invoked (map (λ i, @Armed Fn (g i)) l) = [].
Proof. induction l as [|i l IH]; [done|]. cbn. exact IH. Qed.

(** Consecutive [retry] calls arm the timer with the successive iterates of
    the strategy's [nextDelay], starting from the current delay, and run no
    callable. *)
Lemma retries_state {Fn : Type} (funcs : list Fn) :
  ∀ r : Retry.t Fn,
    trace (retries funcs r)
    = trace r ++ map (λ i, Armed (Nat.iter i (nextDelay (strategy_ r)) (delayValue r)))
                     (seq 0 (length funcs))
    ∧ delayValue (retries funcs r)
      = Nat.iter (length funcs) (nextDelay (strategy_ r)) (delayValue r)
    ∧ nextDelay (strategy_ (retries funcs r)) = nextDelay (strategy_ r)
    ∧ initialDelay_ (strategy_ (retries funcs r)) = initialDelay_ (strategy_ r)
    ∧ attemptNumber (retries funcs r) = attemptNumber r.
Proof.
  induction funcs as [|func funcs IH]; intros r.
  - cbn. by rewrite app_nil_r.
  - change (retries (func :: funcs) r) with (retries funcs (retry func r)).
    destruct (IH (retry func r)) as (Htr & Hdelay & Hnext & Hinit & Hatt).
    rewrite Htr, Hdelay, Hnext, Hinit, Hatt. rewrite retry_state.
    unfold delayValue, attemptNumber, increaseDelay, getDelay. cbn -[Nat.iter].
    repeat split.
    + rewrite <- app_assoc. f_equal. cbn [app]. f_equal.
      rewrite <- (seq_shift (length funcs) 0), map_map.
      apply map_ext. intros i. by rewrite Nat.iter_succ_r.
    + by rewrite Nat.iter_succ_r.
Qed.

(** The iterates of the exponential strategy. *)
Lemma exponential_iterates (delay maxDelay : duration) (i : nat) :
  0 ≤ delay ≤ maxDelay →
  Nat.iter i (ExponentialBackoffStrategy_nextDelay maxDelay) delay
  = Z.min (delay * 2 ^ Z.of_nat i) maxDelay.
Proof.
  intros Hd. induction i as [|i IH].
  - cbn. lia.
  - rewrite Nat.iter_succ, IH. unfold ExponentialBackoffStrategy_nextDelay.
    rewrite Nat2Z.inj_succ, Z.pow_succ_r by lia.
    assert (0 < 2 ^ Z.of_nat i) by (apply Z.pow_pos_nonneg; lia).
    nia.
Qed.

Lemma nondecreasing_map_seq (g : nat → duration) (k : nat) :
  (∀ i, g i ≤ g (S i)) → nondecreasing (map g (seq 0 k)).
Proof.
  intros Hstep i j di dj Hij Hi Hj.
  change (map g (seq 0 k)) with (g <$> seq 0 k) in Hi, Hj.
  rewrite list_lookup_fmap in Hi, Hj.
  destruct (seq 0 k !! i) as [i'|] eqn:Hi'; [|done].
  destruct (seq 0 k !! j) as [j'|] eqn:Hj'; [|done].
  apply lookup_seq in Hi' as [-> _]. apply lookup_seq in Hj' as [-> _].
  cbn in Hi, Hj. inversion Hi; inversion Hj; subst. clear Hi Hj.
  induction Hij as [|j Hij IH]; [lia|]. etransitivity; [exact IH|apply Hstep].
Qed.

Lemma exponential_retries_trace {Fn : Type} (delay maxDelay : duration) (funcs : list Fn) :
  0 ≤ delay ≤ maxDelay →
  trace (retries funcs (makeRetryExponentialBackoff delay maxDelay))
  = map (λ i, Armed (Z.min (delay * 2 ^ Z.of_nat i) maxDelay)) (seq 0 (length funcs)).
Proof.
  intros Hd.
  destruct (retries_state funcs (@makeRetryExponentialBackoff Fn delay maxDelay))
    as (Htr & _).
  rewrite Htr. cbn [trace makeRetryExponentialBackoff Retry_new app].
  apply map_ext. intros i. f_equal. by apply exponential_iterates.
Qed.

(** The iterates of a strategy that never lowers a delay of a range it stays
    in never go down. *)
Lemma iterates_never_lower (next : duration → duration) (within : duration → Prop)
    (d : duration) :
  within d →
  (∀ d', within d' → d' ≤ next d' ∧ within (next d')) →
  ∀ i : nat, Nat.iter i next d ≤ Nat.iter (S i) next d.
Proof.
  intros Hd Hnext i.
  assert (Hin : within (Nat.iter i next d)).
  { induction i as [|i IH]; [done|]. rewrite Nat.iter_succ. by apply Hnext. }
  rewrite Nat.iter_succ. by apply Hnext.
Qed.

(** C6: [retry] arms the timer with the current delay of the strategy and
    advances the delay at once, while the wait is still outstanding and no
    attempt is counted. So when advancing never lowers the delay (on a range
    of delays that holds the current one and that the strategy stays in), any
    number of consecutive [retry] calls arm delays that never go down, one
    per call, and no callable runs. With the exponential strategy, 100 ms and
    1600 ms, the [i]-th armed delay, counted from zero, is
    min(100 * 2^i, 1600) ms: 100, 200, 400, 800, 1600, 1600, ...; these never
    go down and doubling any of them stays within the 64 bits of a duration.
    [reset] puts the delay back to the initial 100 ms and the attempt number
    to 0. *)
Theorem retry_arms_then_advances :
  (∀ (Fn : Type) (r : Retry.t Fn) (func : Fn),
      trace (retry func r) = trace r ++ [Armed (delayValue r)]
      ∧ expiry (timer_ (retry func r)) = Some (delayValue r)
      ∧ waits (timer_ (retry func r)) = [func]
      ∧ delayValue (retry func r) = nextDelay (strategy_ r) (delayValue r)
      ∧ attemptNumber (retry func r) = attemptNumber r)
  ∧ (∀ (Fn : Type) (r : Retry.t Fn) (funcs : list Fn) (within : duration → Prop),
       within (delayValue r) →
       (∀ d, within d →
             d ≤ nextDelay (strategy_ r) d ∧ within (nextDelay (strategy_ r) d)) →
       ∃ ds : list duration,
         armed_delays (trace (retries funcs r)) = armed_delays (trace r) ++ ds
         ∧ length ds = length funcs
         ∧ nondecreasing ds
         ∧ invoked (trace (retries funcs r)) = invoked (trace r)
         ∧ attemptNumber (retries funcs r) = attemptNumber r)
  ∧ (∀ (Fn : Type) (funcs : list Fn),
       trace (retries funcs
                (makeRetryExponentialBackoff (milliseconds 100) (milliseconds 1600)))
       = map (λ i, Armed (milliseconds (Z.min (100 * 2 ^ Z.of_nat i) 1600)))
             (seq 0 (length funcs))
       ∧ nondecreasing
           (armed_delays
              (trace (retries funcs
                        (makeRetryExponentialBackoff (milliseconds 100)
                                                     (milliseconds 1600)))))
       ∧ (∀ i d,
            armed_delays
              (trace (retries funcs
                        (makeRetryExponentialBackoff (milliseconds 100)
                                                     (milliseconds 1600)))) !! i
            = Some d →
            0 < d ∧ d * 2 < 2 ^ 63))
  ∧ (∀ (Fn : Type) (f1 f2 f3 f4 f5 f6 : Fn),
       armed_delays
         (trace (retries [f1; f2; f3; f4; f5; f6]
                   (makeRetryExponentialBackoff (milliseconds 100) (milliseconds 1600))))
       = map milliseconds [100; 200; 400; 800; 1600; 1600])
  ∧ (∀ (Fn : Type) (funcs : list Fn),
       delayValue
         (reset (retries funcs
                   (makeRetryExponentialBackoff (milliseconds 100) (milliseconds 1600))))
       = milliseconds 100
       ∧ attemptNumber
           (reset (retries funcs
                     (makeRetryExponentialBackoff (milliseconds 100) (milliseconds 1600))))
         = 0%N)
  ∧ (∀ (Fn : Type) (r : Retry.t Fn),
       delayValue (reset r) = initialDelay_ (strategy_ r)
       ∧ attemptNumber (reset r) = 0%N
       ∧ timer_ (reset r) = timer_ r).
Proof.
  split; [|split; [|split; [|split; [|split]]]].
  - intros Fn r func. rewrite retry_state. done.
  - intros Fn r funcs within Hin Hnext.
    destruct (retries_state funcs r) as (Htr & _ & _ & _ & Hatt).
    exists (map (λ i, Nat.iter i (nextDelay (strategy_ r)) (delayValue r))
                (seq 0 (length funcs))).
    rewrite Htr, armed_delays_app, invoked_app, armed_delays_armed, invoked_armed.
    rewrite length_map, length_seq, app_nil_r.
    repeat split; try done.
    apply nondecreasing_map_seq. by apply (iterates_never_lower _ within).
  - intros Fn funcs.
    assert (Htrace :
              trace (retries funcs
                       (@makeRetryExponentialBackoff Fn (milliseconds 100)
                                                     (milliseconds 1600)))
              = map (λ i, Armed (milliseconds (Z.min (100 * 2 ^ Z.of_nat i) 1600)))
                    (seq 0 (length funcs))).
    { rewrite exponential_retries_trace by (unfold milliseconds; lia).
      apply map_ext. intros i. f_equal. unfold milliseconds.
      assert (0 < 2 ^ Z.of_nat i) by (apply Z.pow_pos_nonneg; lia).
      lia. }
    rewrite Htrace, armed_delays_armed. split; [done|]. split.
    + apply nondecreasing_map_seq. intros i. unfold milliseconds.
      rewrite Nat2Z.inj_succ, Z.pow_succ_r by lia.
      assert (0 < 2 ^ Z.of_nat i) by (apply Z.pow_pos_nonneg; lia).
      lia.
    + intros i d Hd.
      change (map ?h ?l) with (h <$> l) in Hd. rewrite list_lookup_fmap in Hd.
      destruct (seq 0 (length funcs) !! i) as [j|]; [|done].
      cbn in Hd. injection Hd as <-. unfold milliseconds.
      assert (0 < 2 ^ Z.of_nat j) by (apply Z.pow_pos_nonneg; lia).
      lia.
  - intros Fn f1 f2 f3 f4 f5 f6. reflexivity.
  - intros Fn funcs.
    destruct (retries_state funcs
                (@makeRetryExponentialBackoff Fn (milliseconds 100) (milliseconds 1600)))
      as (_ & _ & _ & Hinit & _).
    unfold delayValue, attemptNumber, reset, strategy_reset, getDelay. cbn.
    by rewrite Hinit.
  - intros Fn r. done.
Qed.

(** C7: when the wait started by [retry] completes with [operation_aborted],
    which is what cancelling the timer before it expires does, the handler
    returns at once: the callable is not run and the attempt is not counted.
    Nothing is left for a later expiry to run. *)
Theorem cancelled_retry_runs_nothing (Fn : Type) (r : Retry.t Fn) (func : Fn) :
  wait_handler func operation_aborted (retry func r) = retry func r
  ∧ trace (timer_cancel (retry func r)) = trace (retry func r)
  ∧ invoked (trace (timer_cancel (retry func r))) = invoked (trace r)
  ∧ attemptNumber_ (timer_cancel (retry func r)) = attemptNumber_ r
  ∧ waits (timer_ (timer_cancel (retry func r))) = []
  ∧ timer_fires (timer_cancel (retry func r)) = timer_cancel (retry func r).
Proof.
  unfold timer_cancel, timer_fires.
  rewrite complete_waits_aborted, retry_state.
  cbn [strategy_ timer_ attemptNumber_ trace expiry waits wait_handler complete_waits
       fold_left].
  repeat split. rewrite invoked_app. apply app_nil_r.
Qed.

(** [Retry::cancel] right after [retry]: the callable does not run and the
    attempt number stays. *)
Lemma cancel_after_retry (Fn : Type) (r : Retry.t Fn) (func : Fn) :
  invoked (trace (cancel (retry func r))) = invoked (trace r)
  ∧ attemptNumber (cancel (retry func r)) = attemptNumber r.
Proof.
  unfold cancel, timer_cancel, attemptNumber.
  rewrite complete_waits_aborted, retry_state.
  cbn [attemptNumber_ trace]. split; [|done].
  rewrite invoked_app. apply app_nil_r.
Qed.

End RetryProperties.

Lemma retry_arms_then_advances_witness :
  ∃ ds : list Retry.duration,
    Retry.armed_delays
      (Retry.trace
         (Retry.retries [(); (); ()]
            (Retry.makeRetryExponentialBackoff (Retry.milliseconds 100)
                                               (Retry.milliseconds 1600))))
    = Retry.armed_delays
        (Retry.trace
           (Retry.makeRetryExponentialBackoff (Fn := unit) (Retry.milliseconds 100)
                                              (Retry.milliseconds 1600)))
      ++ ds
    ∧ length ds = 3
    ∧ Retry.nondecreasing ds
    ∧ Retry.invoked
        (Retry.trace
           (Retry.retries [(); (); ()]
              (Retry.makeRetryExponentialBackoff (Retry.milliseconds 100)
                                                 (Retry.milliseconds 1600))))
      = Retry.invoked
          (Retry.trace
             (Retry.makeRetryExponentialBackoff (Fn := unit) (Retry.milliseconds 100)
                                                (Retry.milliseconds 1600)))
    ∧ Retry.attemptNumber
        (Retry.retries [(); (); ()]
           (Retry.makeRetryExponentialBackoff (Retry.milliseconds 100)
                                              (Retry.milliseconds 1600)))
      = Retry.attemptNumber
          (Retry.makeRetryExponentialBackoff (Fn := unit) (Retry.milliseconds 100)
                                             (Retry.milliseconds 1600)).
Proof.
  apply (proj1 (proj2 retry_arms_then_advances) unit
               (Retry.makeRetryExponentialBackoff (Retry.milliseconds 100)
                                                  (Retry.milliseconds 1600))
               [(); (); ()]
               (λ d, 0 ≤ d ≤ Retry.milliseconds 1600)%Z).
  - unfold Retry.milliseconds. cbn. lia.
  - intros d Hd. cbn. unfold Retry.ExponentialBackoffStrategy_nextDelay, Retry.milliseconds in *.
    lia.
Defined.

(** * Part III: further properties of the code *)

(** ** DOSGuard *)

Section DOSGuardFurther.
Import DOSGuard.
Local Open Scope N_scope.

Lemma with_ipConnCount_id (g : DOSGuard.t) : with_ipConnCount g (ipConnCount_ g) = g.
Proof. by destruct g. Qed.

Lemma with_ipConnCount_twice (g : DOSGuard.t) (m1 m2 : gmap string N) :
  with_ipConnCount (with_ipConnCount g m1) m2 = with_ipConnCount g m2.
Proof. reflexivity. Qed.

(** The verdict of [isOk] on a client only reads the configuration and the
    two entries of that client. *)
Lemma isOk_ext (g g' : DOSGuard.t) (ip : string) :
  same_config g g' →
  ipState_ g' !! ip = ipState_ g !! ip →
  ipConnCount_ g' !! ip = ipConnCount_ g !! ip →
  isOk g' ip = isOk g ip.
Proof.
  intros (Hw & HmF & HmC & HmR) Hst Hconn. unfold isOk.
  by rewrite Hw, HmF, HmC, HmR, Hst, Hconn.
Qed.

(** One connection that is opened and closed again. *)
Lemma increment_decrement_once (g : DOSGuard.t) (ip : string) :
  ipConnCount_ g !! ip ≠ Some 0 →
  ipConnCount_at g ip + 1 < UINT32_MOD →
  decrement (increment g ip) ip = Passed g.
Proof.
  intros Hnz Hrange. unfold increment.
  destruct (whitelistHandler_ g ip) eqn:Hw.
  - unfold decrement. by rewrite Hw.
  - assert (Hat : ipConnCount_at
                    (with_ipConnCount g (<[ip:=u32_incr (ipConnCount_at g ip)]>
                                           (ipConnCount_ g))) ip
                  = ipConnCount_at g ip + 1).
    { unfold ipConnCount_at at 1, with_ipConnCount. cbn.
      rewrite lookup_insert_eq. cbn. by apply u32_incr_small. }
    unfold decrement. rewrite Hat.
    change (whitelistHandler_ (with_ipConnCount g ?m)) with (whitelistHandler_ g).
    rewrite Hw.
    destruct (N.ltb_spec 0 (ipConnCount_at g ip + 1)) as [_|]; [|lia].
    rewrite u32_decr_pos by lia.
    replace (ipConnCount_at g ip + 1 - 1) with (ipConnCount_at g ip) by lia.
    rewrite !with_ipConnCount_twice.
    change (ipConnCount_ (with_ipConnCount g ?m)) with m.
    unfold ipConnCount_at in *.
    destruct (ipConnCount_ g !! ip) as [c|] eqn:Hlook; cbn [from_option id] in *.
    + destruct (N.eqb_spec c 0) as [->|Hc]; [done|].
      rewrite insert_insert_eq, insert_id by done. by rewrite with_ipConnCount_id.
    + cbn. rewrite delete_insert_eq, delete_id by done. by rewrite with_ipConnCount_id.
Qed.

Lemma increments_whitelisted (n : nat) (g : DOSGuard.t) (ip : string) :
  whitelistHandler_ g ip = true → increments n g ip = g.
Proof.
  intros Hw. induction n as [|n IH]; [done|]. cbn. rewrite IH.
  unfold increment. by rewrite Hw.
Qed.

Lemma decrements_whitelisted (n : nat) (g : DOSGuard.t) (ip : string) :
  whitelistHandler_ g ip = true → decrements n g ip = Passed g.
Proof.
  intros Hw. induction n as [|n IH]; [done|]. cbn.
  unfold decrement. by rewrite Hw.
Qed.

(** The count after [n] connections of a client that is not whitelisted. *)
Lemma increments_count (n : nat) (g : DOSGuard.t) (ip : string) :
  whitelistHandler_ g ip = false →
  ipConnCount_at g ip + N.of_nat n < UINT32_MOD →
  whitelistHandler_ (increments n g ip) = whitelistHandler_ g
  ∧ ipConnCount_at (increments n g ip) ip = ipConnCount_at g ip + N.of_nat n
  ∧ ((0 < n)%nat →
     ipConnCount_ (increments n g ip) !! ip = Some (ipConnCount_at g ip + N.of_nat n)).
Proof.
  intros Hw. induction n as [|n IH]; intros Hrange.
  - cbn. split; [done|]. split; [lia|]. lia.
  - destruct IH as (Hw' & Hcount & _); [lia|].
    cbn [increments]. set (g1 := increments n g ip) in *.
    assert (Hinc : increment g1 ip
                   = with_ipConnCount g1 (<[ip:=ipConnCount_at g ip + N.of_nat (S n)]>
                                            (ipConnCount_ g1))).
    { unfold increment. rewrite Hw', Hw, Hcount, u32_incr_small by lia.
      do 2 f_equal. lia. }
    rewrite Hinc.
    assert (Hlook : ipConnCount_ (with_ipConnCount g1
                                    (<[ip:=ipConnCount_at g ip + N.of_nat (S n)]>
                                       (ipConnCount_ g1))) !! ip
                    = Some (ipConnCount_at g ip + N.of_nat (S n)))
      by apply lookup_insert_eq.
    split; [exact Hw'|]. split; [|done].
    unfold ipConnCount_at at 1. by rewrite Hlook.
Qed.

(** X1: Connections that are opened and closed again, [n] of each, leave the
    guard exactly as it was: the count is back and an entry the connections
    created is erased. One more [decrement] than there were connections of a
    client without an entry fails the assertion. *)
Theorem connections_balanced_roundtrip (n : nat) (g : DOSGuard.t) (ip : string) :
  ipConnCount_at g ip + N.of_nat n < UINT32_MOD →
  (ipConnCount_ g !! ip ≠ Some 0 → decrements n (increments n g ip) ip = Passed g)
  ∧ (whitelistHandler_ g ip = false → ipConnCount_ g !! ip = None →
     ∃ message, decrements (S n) (increments n g ip) ip = AssertionFailed message).
Proof.
  intros Hrange. split.
  - intros Hnz. destruct (whitelistHandler_ g ip) eqn:Hw.
    { rewrite increments_whitelisted by done. by apply decrements_whitelisted. }
    induction n as [|n IH]; [done|].
    destruct (increments_count n g ip Hw) as (_ & Hcount & Hlook); [lia|].
    cbn [increments decrements].
    rewrite increment_decrement_once; [apply IH; lia| |rewrite Hcount; lia].
    destruct n as [|n]; [done|]. rewrite Hlook by lia. intros [= Hz]. lia.
  - intros Hw Hnone. induction n as [|n IH].
    + cbn. unfold decrement, ipConnCount_at. rewrite Hw, Hnone. cbn. eauto.
    + destruct (increments_count n g ip Hw) as (_ & Hcount & Hlook); [lia|].
      change (decrements (S (S n)) (increments (S n) g ip) ip)
        with (match decrement (increment (increments n g ip) ip) ip with
              | Passed g' => decrements (S n) g' ip
              | AssertionFailed message => AssertionFailed message
              end).
      rewrite increment_decrement_once; [apply IH; lia| |rewrite Hcount; lia].
      destruct n as [|n]; [cbn [increments]; by rewrite Hnone|].
      rewrite Hlook by lia. intros [= Hz]. lia.
Qed.

(** What [add] does for a client that is not whitelisted. *)
Lemma add_not_whitelisted (g : DOSGuard.t) (ip : string) (numObjects : N) :
  whitelistHandler_ g ip = false →
  ∃ g', add g ip numObjects = (isOk g' ip, g')
        ∧ same_config g g'
        ∧ ipConnCount_ g' = ipConnCount_ g
        ∧ transferedByte (ipState_at g' ip)
          = u32_add (transferedByte (ipState_at g ip)) numObjects
        ∧ requestsCount (ipState_at g' ip) = requestsCount (ipState_at g ip)
        ∧ (∀ ip', ip ≠ ip' → ipState_ g' !! ip' = ipState_ g !! ip').
Proof.
  intros Hw. unfold add. rewrite Hw. eexists. split; [reflexivity|].
  unfold ipState_at, with_ipState, same_config; cbn. rewrite lookup_insert_eq. cbn.
  repeat split. intros ip' Hne. by rewrite lookup_insert_ne.
Qed.

(** What [request] does for a client that is not whitelisted. *)
Lemma request_effect (g : DOSGuard.t) (ip : string) :
  whitelistHandler_ g ip = false →
  ∃ g', request g ip = (isOk g' ip, g')
        ∧ same_config g g'
        ∧ ipConnCount_ g' = ipConnCount_ g
        ∧ transferedByte (ipState_at g' ip) = transferedByte (ipState_at g ip)
        ∧ requestsCount (ipState_at g' ip) = u32_incr (requestsCount (ipState_at g ip))
        ∧ (∀ ip', ip ≠ ip' → ipState_ g' !! ip' = ipState_ g !! ip').
Proof.
  intros Hw. unfold request. rewrite Hw. eexists. split; [reflexivity|].
  unfold ipState_at, with_ipState, same_config; cbn. rewrite lookup_insert_eq. cbn.
  repeat split. intros ip' Hne. by rewrite lookup_insert_ne.
Qed.

Lemma over_limit_ext (g g' : DOSGuard.t) (ip : string) :
  same_config g g' →
  ipConnCount_ g' = ipConnCount_ g →
  over_limit g' ip
  ↔ maxFetches_ g < transferedByte (ipState_at g' ip)
    ∨ maxRequestCount_ g < requestsCount (ipState_at g' ip)
    ∨ maxConnCount_ g < ipConnCount_at g ip.
Proof.
  intros (_ & HmF & HmC & HmR) Hconn. unfold over_limit, ipConnCount_at.
  by rewrite HmF, HmC, HmR, Hconn.
Qed.

(** X3: What a client does never changes what the guard holds about, or answers
    for, another client: opening or closing a connection, adding bytes and
    counting a request for [ip] leave the entries and the verdict of every
    other [ip'] as they were. *)
Theorem client_isolation (g : DOSGuard.t) (ip ip' : string) (numObjects : N) :
  ip ≠ ip' →
  (same_client g (increment g ip) ip' ∧ isOk (increment g ip) ip' = isOk g ip')
  ∧ (∀ g', decrement g ip = Passed g' →
           same_client g g' ip' ∧ isOk g' ip' = isOk g ip')
  ∧ (same_client g (add g ip numObjects).2 ip'
     ∧ isOk (add g ip numObjects).2 ip' = isOk g ip')
  ∧ (same_client g (request g ip).2 ip' ∧ isOk (request g ip).2 ip' = isOk g ip').
Proof.
  intros Hne.
  assert (Hframe : ∀ g', same_config g g' → same_client g g' ip' →
                         same_client g g' ip' ∧ isOk g' ip' = isOk g ip').
  { intros g' Hcfg [Hst Hconn]. split; [done|]. by apply isOk_ext. }
  split; [|split; [|split]].
  - apply Hframe; unfold increment, same_config, same_client;
      destruct (whitelistHandler_ g ip); cbn; try done.
    split; [done|]. by rewrite lookup_insert_ne.
  - intros g' Hdec. unfold decrement in Hdec.
    destruct (whitelistHandler_ g ip); [inversion Hdec; subst; by apply Hframe|].
    destruct (0 <? ipConnCount_at g ip); [|done].
    destruct (u32_decr (ipConnCount_at g ip) =? 0); inversion Hdec; subst;
      apply Hframe; unfold same_config, same_client; cbn; try done.
    + split; [done|]. by rewrite lookup_delete_ne.
    + split; [done|]. by rewrite lookup_insert_ne.
  - destruct (whitelistHandler_ g ip) eqn:Hw.
    + unfold add. rewrite Hw. by apply Hframe.
    + destruct (add_not_whitelisted g ip numObjects Hw)
        as (g' & -> & Hcfg & Hconn & _ & _ & Hother).
      cbn [snd]. apply Hframe; [done|]. split; [by apply Hother|by rewrite Hconn].
  - destruct (whitelistHandler_ g ip) eqn:Hw.
    + unfold request. rewrite Hw. by apply Hframe.
    + destruct (request_effect g ip Hw) as (g' & -> & Hcfg & Hconn & _ & _ & Hother).
      cbn [snd]. apply Hframe; [done|]. split; [by apply Hother|by rewrite Hconn].
Qed.

(** X4: The verdict of [add]: unless the byte counter wraps around, the client is
    admitted exactly when the bytes including the ones just added, the
    requests and the connections are all within their limits. *)
Theorem add_verdict (g : DOSGuard.t) (ip : string) (numObjects : N) :
  whitelistHandler_ g ip = false →
  transferedByte (ipState_at g ip) + numObjects < UINT32_MOD →
  (add g ip numObjects).1 = true
  ↔ transferedByte (ipState_at g ip) + numObjects ≤ maxFetches_ g
    ∧ requestsCount (ipState_at g ip) ≤ maxRequestCount_ g
    ∧ ipConnCount_at g ip ≤ maxConnCount_ g.
Proof.
  intros Hw Hrange.
  destruct (add_not_whitelisted g ip numObjects Hw)
    as (g' & -> & Hcfg & Hconn & Htb & Hrq & _).
  cbn [fst].
  assert (Hw' : whitelistHandler_ g' ip = false) by (destruct Hcfg as [-> _]; done).
  pose proof (isOk_false_iff g' ip Hw') as Hiff.
  rewrite (over_limit_ext g g' ip Hcfg Hconn), Htb, Hrq in Hiff.
  unfold u32_add in Hiff. rewrite N.mod_small in Hiff by done.
  destruct (isOk g' ip).
  - split; [|done]. intros _.
    destruct (N.le_gt_cases (transferedByte (ipState_at g ip) + numObjects) (maxFetches_ g));
      destruct (N.le_gt_cases (requestsCount (ipState_at g ip)) (maxRequestCount_ g));
      destruct (N.le_gt_cases (ipConnCount_at g ip) (maxConnCount_ g));
      try done; exfalso; assert (true = false) by (apply Hiff; auto); done.
  - split; [done|]. intros (H1 & H2 & H3).
    destruct (proj1 Hiff eq_refl) as [?|[?|?]]; lia.
Qed.

(** X5: A client that the guard rejects stays rejected by every further [request]
    and [add], as long as its counters do not wrap around: only [clear] and
    closed connections admit it again. *)
Theorem rejected_stays_rejected (g : DOSGuard.t) (ip : string) :
  isOk g ip = false →
  (requestsCount (ipState_at g ip) + 1 < UINT32_MOD → (request g ip).1 = false)
  ∧ (∀ numObjects,
       transferedByte (ipState_at g ip) + numObjects < UINT32_MOD →
       (add g ip numObjects).1 = false).
Proof.
  intros Hrej.
  assert (Hw : whitelistHandler_ g ip = false).
  { destruct (whitelistHandler_ g ip) eqn:Hw; [|done].
    by rewrite isOk_whitelisted in Hrej. }
  apply (isOk_false_iff g ip Hw) in Hrej. unfold over_limit in Hrej.
  split.
  - intros Hrange.
    destruct (request_effect g ip Hw) as (g' & -> & Hcfg & Hconn & Htb & Hrq & _).
    cbn [fst]. apply isOk_false_iff; [destruct Hcfg as [-> _]; done|].
    apply (over_limit_ext g g' ip Hcfg Hconn). rewrite Htb, Hrq.
    rewrite u32_incr_small by done. lia.
  - intros numObjects Hrange.
    destruct (add_not_whitelisted g ip numObjects Hw)
      as (g' & -> & Hcfg & Hconn & Htb & Hrq & _).
    cbn [fst]. apply isOk_false_iff; [destruct Hcfg as [-> _]; done|].
    apply (over_limit_ext g g' ip Hcfg Hconn). rewrite Htb, Hrq.
    unfold u32_add. rewrite N.mod_small by done. lia.
Qed.

(** X6: After [clear] only the connection gate is left: a client is rejected
    exactly when it is not whitelisted and has more connections open than
    allowed, whatever it had transferred or requested before. *)
Theorem clear_readmits (g : DOSGuard.t) (ip : string) :
  isOk (clear g) ip = false
  ↔ whitelistHandler_ g ip = false ∧ maxConnCount_ g < ipConnCount_at g ip.
Proof.
  destruct (whitelistHandler_ g ip) eqn:Hw.
  - rewrite isOk_whitelisted by done. split; [done|]. by intros [? _].
  - rewrite (isOk_false_iff (clear g) ip Hw).
    unfold over_limit, ipState_at, ipConnCount_at, clear, with_ipState. cbn.
    rewrite lookup_empty. cbn. split.
    + intros [?|[?|?]]; [lia|lia|done].
    + intros [_ ?]. auto.
Qed.

(** X2: The stored connection counts stay positive and within 32 bits: a new
    guard has none, [decrement], [add], [request] and [clear] keep the
    property, and so does [increment] below the top of the counter. *)
Theorem conn_counts_positive_invariant :
  (∀ whitelist maxFetches maxConn maxRequests,
      conn_counts_positive (make whitelist maxFetches maxConn maxRequests))
  ∧ (∀ g ip, conn_counts_positive g →
             ipConnCount_at g ip + 1 < UINT32_MOD →
             conn_counts_positive (increment g ip))
  ∧ (∀ g ip g', conn_counts_positive g → decrement g ip = Passed g' →
                conn_counts_positive g')
  ∧ (∀ g ip numObjects, conn_counts_positive g →
                        conn_counts_positive (add g ip numObjects).2)
  ∧ (∀ g ip, conn_counts_positive g → conn_counts_positive (request g ip).2)
  ∧ (∀ g, conn_counts_positive g → conn_counts_positive (clear g)).
Proof.
  unfold conn_counts_positive. split; [|split; [|split; [|split; [|split]]]].
  - intros whitelist maxFetches maxConn maxRequests ip c. cbn.
    by rewrite lookup_empty.
  - intros g ip Hinv Hrange ip' c. unfold increment.
    destruct (whitelistHandler_ g ip); [apply Hinv|]. cbn.
    destruct (decide (ip = ip')) as [<-|Hne].
    + rewrite lookup_insert_eq. intros [= <-].
      rewrite u32_incr_small by done. lia.
    + rewrite lookup_insert_ne by done. apply Hinv.
  - intros g ip g' Hinv Hdec ip' c. unfold decrement in Hdec.
    destruct (whitelistHandler_ g ip); [inversion Hdec; subst; apply Hinv|].
    destruct (0 <? ipConnCount_at g ip); [|done].
    destruct (N.eqb_spec (u32_decr (ipConnCount_at g ip)) 0) as [Hz|Hnz];
      inversion Hdec; subst; cbn.
    + destruct (decide (ip = ip')) as [<-|Hne].
      * by rewrite lookup_delete_eq.
      * rewrite lookup_delete_ne by done. apply Hinv.
    + destruct (decide (ip = ip')) as [<-|Hne].
      * rewrite lookup_insert_eq. intros [= <-].
        pose proof (u32_decr_range (ipConnCount_at g ip)). lia.
      * rewrite lookup_insert_ne by done. apply Hinv.
  - intros g ip numObjects Hinv. unfold add.
    destruct (whitelistHandler_ g ip); apply Hinv.
  - intros g ip Hinv. unfold request.
    destruct (whitelistHandler_ g ip); apply Hinv.
  - intros g Hinv. apply Hinv.
Qed.

(** X7: The verdicts of [n] consecutive requests of a client that is not
    whitelisted and is within its byte and connection limits: with [c]
    requests counted before, the [i]-th request, counted from one, is
    admitted exactly when [c + i] does not exceed the request limit. *)
Theorem requests_verdict_sequence (n : nat) (g : DOSGuard.t) (ip : string) :
  whitelistHandler_ g ip = false →
  transferedByte (ipState_at g ip) ≤ maxFetches_ g →
  ipConnCount_at g ip ≤ maxConnCount_ g →
  requestsCount (ipState_at g ip) + N.of_nat n < UINT32_MOD →
  ∀ i : nat, (i < n)%nat →
    (requests n g ip).1 !! i
    = Some (bool_decide (requestsCount (ipState_at g ip) + N.of_nat (S i)
                         ≤ maxRequestCount_ g)).
Proof.
  intros Hw Hb Hc Hr i Hi.
  rewrite requests_verdicts by done.
  change (map ?h ?l) with (h <$> l). rewrite list_lookup_fmap.
  rewrite (proj2 (lookup_seq 1 n i (S i))) by (split; [done|lia]). cbn [fmap option_fmap option_map].
  f_equal. case_bool_decide as Hle.
  - apply negb_true_iff, N.ltb_ge. exact Hle.
  - apply negb_false_iff, N.ltb_lt. lia.
Qed.

End DOSGuardFurther.

(** Witnesses, on the guard that allows 1000 bytes, 2 connections and 10
    requests and whitelists 10.0.0.1. *)

Lemma connections_balanced_roundtrip_witness :
  DOSGuard.decrements 3
    (DOSGuard.increments 3 (DOSGuard.make (String.eqb "10.0.0.1") 1000 2 10) "192.168.0.7")
    "192.168.0.7"
  = DOSGuard.Passed (DOSGuard.make (String.eqb "10.0.0.1") 1000 2 10)
  ∧ ∃ message,
      DOSGuard.decrements 4
        (DOSGuard.increments 3 (DOSGuard.make (String.eqb "10.0.0.1") 1000 2 10)
                             "192.168.0.7")
        "192.168.0.7"
      = DOSGuard.AssertionFailed message.
Proof.
  split.
  - apply (proj1 (connections_balanced_roundtrip 3
                    (DOSGuard.make (String.eqb "10.0.0.1") 1000 2 10) "192.168.0.7"
                    eq_refl)).
    discriminate.
  - apply (proj2 (connections_balanced_roundtrip 3
                    (DOSGuard.make (String.eqb "10.0.0.1") 1000 2 10) "192.168.0.7"
                    eq_refl)); reflexivity.
Defined.

Lemma client_isolation_witness :
  DOSGuard.isOk
    (DOSGuard.request (DOSGuard.make (String.eqb "10.0.0.1") 1000 2 0) "192.168.0.7").2
    "192.168.0.8"
  = DOSGuard.isOk (DOSGuard.make (String.eqb "10.0.0.1") 1000 2 0) "192.168.0.8".
Proof.
  apply (proj2 (proj2 (proj2 (client_isolation
                                (DOSGuard.make (String.eqb "10.0.0.1") 1000 2 0)
                                "192.168.0.7" "192.168.0.8" 0%N
                                ltac:(discriminate))))).
Defined.

Lemma add_verdict_witness :
  (DOSGuard.add (DOSGuard.make (String.eqb "10.0.0.1") 1000 2 10) "192.168.0.7" 1001).1
  = true
  ↔ (0 + 1001 ≤ 1000 ∧ 0 ≤ 10 ∧ 0 ≤ 2)%N.
Proof.
  apply (add_verdict (DOSGuard.make (String.eqb "10.0.0.1") 1000 2 10) "192.168.0.7" 1001).
  - reflexivity.
  - reflexivity.
Defined.

Lemma rejected_stays_rejected_witness :
  (DOSGuard.request
     (DOSGuard.add (DOSGuard.make (String.eqb "10.0.0.1") 1000 2 10)
                   "192.168.0.7" 1001).2
     "192.168.0.7").1
  = false.
Proof.
  apply (proj1 (rejected_stays_rejected
                  (DOSGuard.add (DOSGuard.make (String.eqb "10.0.0.1") 1000 2 10)
                                "192.168.0.7" 1001).2
                  "192.168.0.7" eq_refl)).
  reflexivity.
Defined.

Lemma conn_counts_positive_invariant_witness :
  DOSGuard.conn_counts_positive
    (DOSGuard.increment (DOSGuard.make (String.eqb "10.0.0.1") 1000 2 10) "192.168.0.7").
Proof.
  apply (proj1 (proj2 conn_counts_positive_invariant)
               (DOSGuard.make (String.eqb "10.0.0.1") 1000 2 10) "192.168.0.7").
  - apply (proj1 conn_counts_positive_invariant).
  - reflexivity.
Defined.

Lemma requests_verdict_sequence_witness :
  (DOSGuard.requests 11 (DOSGuard.make (String.eqb "10.0.0.1") 1000 2 10) "192.168.0.7").1
  !! 10%nat
  = Some false.
Proof.
  apply (requests_verdict_sequence 11 (DOSGuard.make (String.eqb "10.0.0.1") 1000 2 10)
                                   "192.168.0.7").
  - reflexivity.
  - by vm_compute.
  - by vm_compute.
  - reflexivity.
  - lia.
Defined.

(** ** LoadBalancer *)

Section LoadBalancerFurther.
Import LoadBalancer.
Context {Source : Type} `{!SourceApi Source}.

Lemma after_not_out_of_range {A} (evs : list Event) (o : Outcome A) :
  o ≠ OutOfRange → after evs o ≠ OutOfRange.
Proof. by destruct o. Qed.

Lemma after_not_division_by_zero {A} (evs : list Event) (o : Outcome A) :
  o ≠ DivisionByZero → after evs o ≠ DivisionByZero.
Proof. by destruct o. Qed.

(** *** Indexing stays within the pool *)

Lemma execute_loop_in_bounds {Captured : Type} (lb : LoadBalancer.t Source)
    (f : Instant → Source → Captured → bool * Captured) (ledgerSequence : N) (fuel : nat) :
  ∀ sourceIdx numAttempts st,
    sourceIdx < length (sources_ lb) →
    execute_loop lb f ledgerSequence fuel sourceIdx numAttempts st ≠ OutOfRange
    ∧ execute_loop lb f ledgerSequence fuel sourceIdx numAttempts st ≠ DivisionByZero.
Proof.
  induction fuel as [|fuel IH]; intros sourceIdx numAttempts st Hidx; [done|].
  assert (Hidx' : (sourceIdx + 1) mod length (sources_ lb) < length (sources_ lb))
    by (apply Nat.mod_upper_bound; lia).
  cbn [execute_loop].
  destruct (lookup_lt_is_Some_2 _ _ Hidx) as [source ->].
  destruct (hasLedger numAttempts source ledgerSequence).
  - destruct (f numAttempts source st) as [[] st1]; [done|].
    destruct (IH _ (numAttempts + 1) st1 Hidx').
    split; [by apply after_not_out_of_range|by apply after_not_division_by_zero].
  - destruct (IH _ (numAttempts + 1) st Hidx').
    split; [by apply after_not_out_of_range|by apply after_not_division_by_zero].
Qed.

Lemma forward_loop_in_bounds (lb : LoadBalancer.t Source) (request : Json)
    (clientIp : string) (fuel : nat) :
  ∀ sourceIdx numAttempts,
    sourceIdx < length (sources_ lb) →
    forward_loop lb request clientIp fuel sourceIdx numAttempts ≠ OutOfRange
    ∧ forward_loop lb request clientIp fuel sourceIdx numAttempts ≠ DivisionByZero.
Proof.
  induction fuel as [|fuel IH]; intros sourceIdx numAttempts Hidx; [done|].
  assert (Hidx' : (sourceIdx + 1) mod length (sources_ lb) < length (sources_ lb))
    by (apply Nat.mod_upper_bound; lia).
  cbn [forward_loop].
  destruct (numAttempts <? length (sources_ lb)); [|done].
  destruct (lookup_lt_is_Some_2 _ _ Hidx) as [source ->].
  destruct (source_forwardToRippled numAttempts source request clientIp); [done|].
  destruct (IH _ (numAttempts + 1) Hidx').
  split; [by apply after_not_out_of_range|by apply after_not_division_by_zero].
Qed.

(** X8: On a pool that is not empty neither [execute] nor [forwardToRippled] ever
    reads [sources_] past its end or divides by zero, whatever the random
    value, the sources' answers and the number of iterations: the index
    starts below the size and every step reduces it modulo the size. *)
Theorem pool_indexing_in_bounds {Captured : Type} (lb : LoadBalancer.t Source)
    (f : Instant → Source → Captured → bool * Captured) (ledgerSequence : N)
    (request : Json) (clientIp : string) (rand_value fuel : nat) (st : Captured) :
  sources_ lb ≠ [] →
  execute lb f ledgerSequence rand_value fuel st ≠ OutOfRange
  ∧ execute lb f ledgerSequence rand_value fuel st ≠ DivisionByZero
  ∧ forwardToRippled lb request clientIp rand_value fuel ≠ OutOfRange
  ∧ forwardToRippled lb request clientIp rand_value fuel ≠ DivisionByZero.
Proof.
  intros Hne.
  assert (Hn : length (sources_ lb) ≠ 0) by (by destruct (sources_ lb)).
  assert (Hidx : rand_value mod length (sources_ lb) < length (sources_ lb))
    by (by apply Nat.mod_upper_bound).
  unfold execute, forwardToRippled. rewrite (proj2 (Nat.eqb_neq _ _) Hn).
  destruct (execute_loop_in_bounds lb f ledgerSequence fuel _ 0 st Hidx).
  destruct (forward_loop_in_bounds lb request clientIp fuel _ 0 Hidx).
  done.
Qed.

(** *** [execute] returns only after a success *)

Lemma execute_loop_returned_inv {Captured : Type} (lb : LoadBalancer.t Source)
    (f : Instant → Source → Captured → bool * Captured) (ledgerSequence : N) (fuel : nat) :
  ∀ sourceIdx numAttempts st b st' tr,
    sourceIdx < length (sources_ lb) →
    execute_loop lb f ledgerSequence fuel sourceIdx numAttempts st = Returned (b, st') tr →
    ∃ (t : nat) (src : Source) (st0 : Captured),
      t < fuel
      ∧ sources_ lb !! ((sourceIdx + t) mod length (sources_ lb)) = Some src
      ∧ hasLedger (numAttempts + t) src ledgerSequence = true
      ∧ f (numAttempts + t) src st0 = (true, st').
Proof.
  induction fuel as [|fuel IH]; intros sourceIdx numAttempts st b st' tr Hidx; [done|].
  assert (Hidx' : (sourceIdx + 1) mod length (sources_ lb) < length (sources_ lb))
    by (apply Nat.mod_upper_bound; lia).
  assert (Hnext : ∀ st1 tr1,
             execute_loop lb f ledgerSequence fuel
                          ((sourceIdx + 1) mod length (sources_ lb)) (numAttempts + 1) st1
             = Returned (b, st') tr1 →
             ∃ t src st0,
               t < S fuel
               ∧ sources_ lb !! ((sourceIdx + t) mod length (sources_ lb)) = Some src
               ∧ hasLedger (numAttempts + t) src ledgerSequence = true
               ∧ f (numAttempts + t) src st0 = (true, st')).
  { intros st1 tr1 Hrun.
    destruct (IH _ _ _ _ _ _ Hidx' Hrun) as (t & src & st0 & Ht & Hsrc & Hhas & Hf).
    exists (S t), src, st0. split; [lia|].
    rewrite Nat.Div0.add_mod_idemp_l in Hsrc.
    replace (sourceIdx + S t) with (sourceIdx + 1 + t) by lia.
    replace (numAttempts + S t) with (numAttempts + 1 + t) by lia. done. }
  cbn [execute_loop].
  destruct (sources_ lb !! sourceIdx) as [source|] eqn:Hsource; [|done].
  destruct (hasLedger numAttempts source ledgerSequence) eqn:Hhas.
  - destruct (f numAttempts source st) as [[] st1] eqn:Hf.
    + intros [= <- <- <-]. exists 0, source, st.
      rewrite !Nat.add_0_r, Nat.mod_small by done. split; [lia|done].
    + intros Hrun. apply after_returned in Hrun as (tr1 & Hrun & _). by eapply Hnext.
  - intros Hrun. apply after_returned in Hrun as (tr1 & Hrun & _). by eapply Hnext.
Qed.

Lemma execute_returned_inv {Captured : Type} (lb : LoadBalancer.t Source)
    (f : Instant → Source → Captured → bool * Captured) (ledgerSequence : N)
    (rand_value fuel : nat) (st : Captured) (b : bool) (st' : Captured) (tr : list Event) :
  execute lb f ledgerSequence rand_value fuel st = Returned (b, st') tr →
  ∃ (t : nat) (src : Source) (st0 : Captured),
    t < fuel
    ∧ sources_ lb !! ((rand_value + t) mod length (sources_ lb)) = Some src
    ∧ hasLedger t src ledgerSequence = true
    ∧ f t src st0 = (true, st').
Proof.
  unfold execute. destruct (Nat.eqb_spec (length (sources_ lb)) 0) as [|Hn]; [done|].
  intros Hrun.
  apply execute_loop_returned_inv in Hrun as (t & src & st0 & Ht & Hsrc & Hhas & Hf);
    [|by apply Nat.mod_upper_bound].
  rewrite Nat.Div0.add_mod_idemp_l in Hsrc. by exists t, src, st0.
Qed.

(** X9: When [execute] returns, some iteration before the end stood at a source
    that reported the ledger and on which the worker returned true, and the
    captured state is the one that worker call left. *)
Theorem execute_returns_after_success {Captured : Type} (lb : LoadBalancer.t Source)
    (f : Instant → Source → Captured → bool * Captured) (ledgerSequence : N)
    (rand_value fuel : nat) (st : Captured) (b : bool) (st' : Captured) (tr : list Event) :
  execute lb f ledgerSequence rand_value fuel st = Returned (b, st') tr →
  ∃ (t : nat) (src : Source) (st0 : Captured),
    t < fuel
    ∧ sources_ lb !! ((rand_value + t) mod length (sources_ lb)) = Some src
    ∧ hasLedger t src ledgerSequence = true
    ∧ f t src st0 = (true, st').
Proof. apply execute_returned_inv. Qed.

(** X10: [execute] has no way out but a success: on a pool that is not empty, when
    the worker fails on every source that reports the ledger, the loop is
    still running after any number of iterations. *)
Theorem execute_never_gives_up {Captured : Type} (lb : LoadBalancer.t Source)
    (f : Instant → Source → Captured → bool * Captured) (ledgerSequence : N)
    (rand_value : nat) (st : Captured) :
  sources_ lb ≠ [] →
  (∀ t src st0,
      sources_ lb !! ((rand_value + t) mod length (sources_ lb)) = Some src →
      hasLedger t src ledgerSequence = true →
      (f t src st0).1 = false) →
  ∀ fuel, execute lb f ledgerSequence rand_value fuel st = OutOfFuel.
Proof.
  intros Hne Hfail fuel.
  assert (Hn : length (sources_ lb) ≠ 0) by (by destruct (sources_ lb)).
  assert (Hidx : rand_value mod length (sources_ lb) < length (sources_ lb))
    by (by apply Nat.mod_upper_bound).
  destruct (execute lb f ledgerSequence rand_value fuel st) as [[b st'] tr| | |] eqn:Hrun.
  - apply execute_returned_inv in Hrun as (t & src & st0 & _ & Hsrc & Hhas & Hf).
    specialize (Hfail t src st0 Hsrc Hhas). rewrite Hf in Hfail. done.
  - unfold execute in Hrun. rewrite (proj2 (Nat.eqb_neq _ _) Hn) in Hrun.
    by destruct (execute_loop_in_bounds lb f ledgerSequence fuel _ 0 st Hidx).
  - unfold execute in Hrun. rewrite (proj2 (Nat.eqb_neq _ _) Hn) in Hrun.
    by destruct (execute_loop_in_bounds lb f ledgerSequence fuel _ 0 st Hidx).
  - done.
Qed.

(** *** The worker only runs where the ledger is reported *)

Lemma execute_loop_worker_ext {Captured : Type} (lb : LoadBalancer.t Source)
    (f f' : Instant → Source → Captured → bool * Captured) (ledgerSequence : N) :
  (∀ t src st, hasLedger t src ledgerSequence = true → f t src st = f' t src st) →
  ∀ fuel sourceIdx numAttempts st,
    execute_loop lb f ledgerSequence fuel sourceIdx numAttempts st
    = execute_loop lb f' ledgerSequence fuel sourceIdx numAttempts st.
Proof.
  intros Hext fuel. induction fuel as [|fuel IH]; intros sourceIdx numAttempts st; [done|].
  cbn [execute_loop].
  destruct (sources_ lb !! sourceIdx) as [source|]; [|done].
  destruct (hasLedger numAttempts source ledgerSequence) eqn:Hhas.
  - rewrite (Hext _ _ _ Hhas). destruct (f' numAttempts source st) as [[] st1]; [done|].
    by rewrite IH.
  - by rewrite IH.
Qed.

(** X11: [execute] never runs the worker on a source that does not report the
    ledger: two workers that agree wherever the ledger is reported give the
    same run, with the same result, captured state and trace. *)
Theorem execute_worker_only_where_ledger {Captured : Type} (lb : LoadBalancer.t Source)
    (f f' : Instant → Source → Captured → bool * Captured) (ledgerSequence : N)
    (rand_value fuel : nat) (st : Captured) :
  (∀ t src st0, hasLedger t src ledgerSequence = true → f t src st0 = f' t src st0) →
  execute lb f ledgerSequence rand_value fuel st
  = execute lb f' ledgerSequence rand_value fuel st.
Proof.
  intros Hext. unfold execute. destruct (length (sources_ lb) =? 0); [done|].
  by apply execute_loop_worker_ext.
Qed.

(** *** Rotation and sleeps *)

Lemma div_succ_step (a n : nat) :
  n ≠ 0 → (a + 1) / n = a / n + (if (a + 1) mod n =? 0 then 1 else 0).
Proof.
  intros Hn.
  pose proof (Nat.div_mod_eq a n) as Ha.
  pose proof (Nat.mod_upper_bound a n Hn) as Hm.
  destruct (decide (a mod n + 1 = n)) as [Hwrap|Hstay].
  - assert (Hmod : 0 = (a + 1) mod n)
      by (apply (Nat.mod_unique _ _ (a / n + 1)); lia).
    assert (Hdiv : a / n + 1 = (a + 1) / n)
      by (apply (Nat.div_unique _ _ _ 0); lia).
    by rewrite <- Hmod, <- Hdiv.
  - assert (Hmod : a mod n + 1 = (a + 1) mod n)
      by (apply (Nat.mod_unique _ _ (a / n)); lia).
    assert (Hdiv : a / n = (a + 1) / n)
      by (apply (Nat.div_unique _ _ _ (a mod n + 1)); lia).
    rewrite <- Hmod, <- Hdiv.
    destruct (Nat.eqb_spec (a mod n + 1) 0); lia.
Qed.

Lemma consulted_app (tr1 tr2 : list Event) :
  consulted (tr1 ++ tr2) = consulted tr1 ++ consulted tr2.
Proof. apply omap_app. Qed.

Lemma sleeps_app (tr1 tr2 : list Event) : sleeps (tr1 ++ tr2) = sleeps tr1 + sleeps tr2.
Proof.
  induction tr1 as [|ev tr1 IH]; [done|]. cbn [app sleeps].
  destruct ev; cbn; by rewrite ?IH.
Qed.

Lemma consulted_sleep_after (lb : LoadBalancer.t Source) (numAttempts : nat) :
  consulted (sleep_after lb numAttempts) = [].
Proof. unfold sleep_after. by destruct (_ =? 0). Qed.

Lemma sleeps_sleep_after (lb : LoadBalancer.t Source) (numAttempts : nat) :
  sleeps (sleep_after lb numAttempts)
  = if numAttempts mod length (sources_ lb) =? 0 then 1 else 0.
Proof. unfold sleep_after. by destruct (_ =? 0). Qed.

Lemma execute_loop_trace {Captured : Type} (lb : LoadBalancer.t Source)
    (f : Instant → Source → Captured → bool * Captured) (ledgerSequence : N) (fuel : nat) :
  ∀ sourceIdx numAttempts st res tr,
    sourceIdx < length (sources_ lb) →
    execute_loop lb f ledgerSequence fuel sourceIdx numAttempts st = Returned res tr →
    ∃ t : nat,
      t < fuel
      ∧ consulted tr
        = map (λ j, (sourceIdx + j) mod length (sources_ lb)) (seq 0 (S t))
      ∧ sleeps tr + numAttempts / length (sources_ lb)
        = (numAttempts + t) / length (sources_ lb).
Proof.
  induction fuel as [|fuel IH]; intros sourceIdx numAttempts st res tr Hidx; [done|].
  assert (Hn : length (sources_ lb) ≠ 0) by lia.
  assert (Hidx' : (sourceIdx + 1) mod length (sources_ lb) < length (sources_ lb))
    by (by apply Nat.mod_upper_bound).
  assert (Hnext : ∀ st1 tr1 evs,
             consulted evs = [sourceIdx] → sleeps evs = 0 →
             execute_loop lb f ledgerSequence fuel
                          ((sourceIdx + 1) mod length (sources_ lb)) (numAttempts + 1) st1
             = Returned res tr1 →
             ∃ t : nat,
               t < S fuel
               ∧ consulted ((evs ++ sleep_after lb (numAttempts + 1)) ++ tr1)
                 = map (λ j, (sourceIdx + j) mod length (sources_ lb)) (seq 0 (S t))
               ∧ sleeps ((evs ++ sleep_after lb (numAttempts + 1)) ++ tr1)
                 + numAttempts / length (sources_ lb)
                 = (numAttempts + t) / length (sources_ lb)).
  { intros st1 tr1 evs Hcons Hsl Hrun.
    destruct (IH _ _ _ _ _ Hidx' Hrun) as (t & Ht & Hord & Hsleeps).
    exists (S t). split; [lia|]. split.
    - rewrite !consulted_app, consulted_sleep_after, Hcons, Hord.
      cbn [app]. change (seq 0 (S (S t))) with (0 :: seq 1 (S t)).
      cbn [map]. rewrite Nat.add_0_r, (Nat.mod_small sourceIdx) by done. f_equal.
      rewrite <- (seq_shift (S t) 0), map_map. apply map_ext. intros j.
      rewrite Nat.Div0.add_mod_idemp_l. f_equal. lia.
    - rewrite !sleeps_app, sleeps_sleep_after, Hsl.
      pose proof (div_succ_step numAttempts (length (sources_ lb)) Hn) as Hstep.
      replace (numAttempts + S t) with (numAttempts + 1 + t) by lia. lia. }
  cbn [execute_loop].
  destruct (sources_ lb !! sourceIdx) as [source|] eqn:Hsource; [|done].
  destruct (hasLedger numAttempts source ledgerSequence).
  - destruct (f numAttempts source st) as [[] st1].
    + intros [= <- <-]. exists 0. split; [lia|]. cbn.
      by rewrite !Nat.add_0_r, Nat.mod_small.
    + intros Hrun. apply after_returned in Hrun as (tr1 & Hrun & ->).
      by eapply Hnext.
  - intros Hrun. apply after_returned in Hrun as (tr1 & Hrun & ->).
    by eapply Hnext.
Qed.

(** X13: A run of [execute] that returns at iteration [t] asked the sources in
    rotation, starting at [rand() % n] and one per iteration, and slept once
    for each of the [t / n] passes it completed without a success. *)
Theorem execute_rotation_and_sleeps {Captured : Type} (lb : LoadBalancer.t Source)
    (f : Instant → Source → Captured → bool * Captured) (ledgerSequence : N)
    (rand_value fuel : nat) (st : Captured) (res : bool * Captured) (tr : list Event) :
  execute lb f ledgerSequence rand_value fuel st = Returned res tr →
  ∃ t : nat,
    t < fuel
    ∧ consulted tr = map (λ j, (rand_value + j) mod length (sources_ lb)) (seq 0 (S t))
    ∧ sleeps tr = t / length (sources_ lb).
Proof.
  unfold execute. destruct (Nat.eqb_spec (length (sources_ lb)) 0) as [|Hn]; [done|].
  intros Hrun.
  apply execute_loop_trace in Hrun as (t & Ht & Hord & Hsleeps);
    [|by apply Nat.mod_upper_bound].
  exists t. split; [done|]. split.
  - rewrite Hord. apply map_ext. intros j. by rewrite Nat.Div0.add_mod_idemp_l.
  - rewrite Nat.Div0.div_0_l in Hsleeps. cbn in Hsleeps. lia.
Qed.

(** *** What [fetchLedger] and [loadInitialLedger] hand back *)

(** X14: What [fetchLedger] returns is the response of a source of the pool that
    reported the ledger, answered with an ok status and a validated response:
    the responses of the sources that failed before it are overwritten. *)
Theorem fetchLedger_returns_source_response (lb : LoadBalancer.t Source)
    (ledgerSequence : N) (getObjects getObjectNeighbors : bool) (rand_value fuel : nat)
    (data : DataType) (tr : list Event) :
  fetchLedger lb ledgerSequence getObjects getObjectNeighbors rand_value fuel
  = Returned data tr →
  ∃ (t : nat) (src : Source) (status : Status) (response : Response),
    t < fuel
    ∧ sources_ lb !! ((rand_value + t) mod length (sources_ lb)) = Some src
    ∧ hasLedger t src ledgerSequence = true
    ∧ source_fetchLedger t src ledgerSequence getObjects getObjectNeighbors
      = (status, response)
    ∧ status_ok status = true
    ∧ response_validated response = true
    ∧ data = Some response.
Proof.
  unfold fetchLedger.
  destruct (execute lb _ ledgerSequence rand_value fuel response_default)
    as [[b st'] tr'| | |] eqn:Hrun; cbn; try done.
  pose proof (execute_returns_true _ _ _ _ _ _ _ _ _ Hrun) as ->.
  intros [= <- <-].
  apply execute_returned_inv in Hrun as (t & src & st0 & Ht & Hsrc & Hhas & Hf).
  unfold fetchLedger_worker in Hf.
  destruct (source_fetchLedger t src ledgerSequence getObjects getObjectNeighbors)
    as [status response] eqn:Hfetch.
  destruct (status_ok status && response_validated response) eqn:Hok; [|done].
  apply andb_true_iff in Hok as [Hstatus Hvalid].
  injection Hf as <-. by exists t, src, status, response.
Qed.

(** X15: What [loadInitialLedger] returns is the data of a source of the pool that
    reported the ledger and whose download succeeded, asked with the
    balancer's [downloadRanges_]: nothing of a failed download is kept. *)
Theorem loadInitialLedger_returns_source_data (lb : LoadBalancer.t Source)
    (sequence : N) (cacheOnly : bool) (rand_value fuel : nat)
    (response : list string) (success : bool) (tr : list Event) :
  loadInitialLedger lb sequence cacheOnly rand_value fuel
  = Returned (response, success) tr →
  ∃ (t : nat) (src : Source),
    t < fuel
    ∧ sources_ lb !! ((rand_value + t) mod length (sources_ lb)) = Some src
    ∧ hasLedger t src sequence = true
    ∧ source_loadInitialLedger t src sequence (downloadRanges_ lb) cacheOnly
      = (response, true)
    ∧ success = true.
Proof.
  unfold loadInitialLedger.
  destruct (execute lb _ sequence rand_value fuel []) as [[b st'] tr'| | |] eqn:Hrun;
    cbn; try done.
  intros [= <- <- <-].
  pose proof (execute_returns_true _ _ _ _ _ _ _ _ _ Hrun) as ->.
  apply execute_returned_inv in Hrun as (t & src & st0 & Ht & Hsrc & Hhas & Hf).
  unfold loadInitialLedger_worker in Hf.
  destruct (source_loadInitialLedger t src sequence (downloadRanges_ lb) cacheOnly)
    as [data res] eqn:Hload.
  destruct res; cbn in Hf; [|done].
  injection Hf as <-. by exists t, src.
Qed.

(** *** [forwardToRippled] reaches every source *)

Lemma round_robin_surj (n r i : nat) : i < n → ∃ j, j < n ∧ (r + j) mod n = i.
Proof.
  intros Hi. assert (Hn : n ≠ 0) by lia.
  pose proof (Nat.mod_upper_bound r n Hn) as Hr.
  exists ((i + n - r mod n) mod n). split; [by apply Nat.mod_upper_bound|].
  rewrite Nat.Div0.add_mod_idemp_r, <- Nat.Div0.add_mod_idemp_l.
  replace (r mod n + (i + n - r mod n)) with (i + 1 * n) by lia.
  rewrite Nat.Div0.mod_add. by apply Nat.mod_small.
Qed.

(** X16: When the answers of the sources do not change during the call,
    [forwardToRippled] on a pool that is not empty finds an answer whenever
    some source of the pool has one, whatever the random starting index: it
    returns the empty optional exactly when every source of the pool answers
    empty, and an answer it returns is the answer of a source of the pool. *)
Theorem forwardToRippled_finds_answer (lb : LoadBalancer.t Source) (request : Json)
    (clientIp : string) (rand_value fuel : nat) :
  sources_ lb ≠ [] →
  length (sources_ lb) < fuel →
  (∀ t src, source_forwardToRippled t src request clientIp
            = source_forwardToRippled 0 src request clientIp) →
  ∃ (res : option Json) (tr : list Event),
    forwardToRippled lb request clientIp rand_value fuel = Returned res tr
    ∧ (res = None
       ↔ ∀ src, src ∈ sources_ lb → source_forwardToRippled 0 src request clientIp = None)
    ∧ (∀ v, res = Some v →
            ∃ src, src ∈ sources_ lb
                   ∧ source_forwardToRippled 0 src request clientIp = Some v).
Proof.
  intros Hne Hfuel Hstable.
  assert (Hn : length (sources_ lb) ≠ 0) by (by destruct (sources_ lb)).
  unfold forwardToRippled. rewrite (proj2 (Nat.eqb_neq _ _) Hn).
  destruct (forward_loop_pass lb request clientIp rand_value (length (sources_ lb)) 0 fuel)
    as (k & Hk & Hempty & Hend); [done..|].
  rewrite Nat.add_0_r in Hend. cbn [Nat.add] in Hend.
  destruct Hend as [[-> Hrun]|(Hlt & src & v & Hsrc & Hfwd & Hrun)].
  - eexists None, _. split; [exact Hrun|]. split; [|done].
    split; [|done]. intros _ src Hin.
    apply list_elem_of_lookup in Hin as [i Hi].
    destruct (round_robin_surj (length (sources_ lb)) rand_value i) as (j & Hj & Hpos);
      [by eapply lookup_lt_Some|].
    destruct (Hempty j) as (src' & Hsrc' & Hnone); [lia|].
    rewrite Hpos, Hi in Hsrc'. injection Hsrc' as <-.
    by rewrite <- (Hstable j).
  - eexists (Some v), _. split; [exact Hrun|].
    assert (Hin : src ∈ sources_ lb) by (by eapply list_elem_of_lookup_2).
    rewrite Hstable in Hfwd. split.
    + split; [done|]. intros Hall. rewrite (Hall src Hin) in Hfwd. done.
    + intros v' [= <-]. by exists src.
Qed.

(** *** A single leader *)

Lemma first_connected_exists (now : Instant) :
  ∀ srcs : list Source,
    (∃ s, s ∈ srcs ∧ isConnected now s = true) →
    ∃ src, src ∈ srcs
           ∧ isConnected now src = true
           ∧ ∀ in_, shouldPropagateTxnStream_from now srcs in_ = source_eqb src in_.
Proof.
  induction srcs as [|s0 srcs IH]; intros (s & Hin & Hconn).
  - by apply elem_of_nil in Hin.
  - destruct (isConnected now s0) eqn:Hs0.
    + exists s0. split; [apply list_elem_of_here|]. split; [done|].
      intros in_. cbn. by rewrite Hs0.
    + apply elem_of_cons in Hin as [->|Hin]; [congruence|].
      destruct IH as (src & Hsrc & Hc & Hans); [by exists s|].
      exists src. split; [by apply list_elem_of_further|]. split; [done|].
      intros in_. cbn. by rewrite Hs0.
Qed.

(** X17: When [operator==] on sources only holds between a source and itself and
    some source of the pool is connected, [shouldPropagateTxnStream] approves
    a single candidate: two approved candidates are the same source, and that
    source is in the pool and connected. *)
Theorem shouldPropagateTxnStream_single_leader (lb : LoadBalancer.t Source)
    (now : Instant) (s1 s2 : Source) :
  (∀ a b, source_eqb a b = true → a = b) →
  (∃ s, s ∈ sources_ lb ∧ isConnected now s = true) →
  shouldPropagateTxnStream lb now s1 = true →
  shouldPropagateTxnStream lb now s2 = true →
  s1 = s2 ∧ s1 ∈ sources_ lb ∧ isConnected now s1 = true.
Proof.
  intros Heq Hsome H1 H2. unfold shouldPropagateTxnStream in *.
  destruct (first_connected_exists now (sources_ lb) Hsome) as (src & Hin & Hconn & Hans).
  rewrite Hans in H1, H2. apply Heq in H1, H2. by subst.
Qed.

(** *** Construction *)

Lemma push_back_all {Config : Type} (make_Source : Config → Source)
    (etl_sources : list Config) :
  ∀ sources : list Source,
    fold_left (λ sources entry, sources ++ [make_Source entry]) etl_sources sources
    = sources ++ map make_Source etl_sources.
Proof.
  induction etl_sources as [|entry etl_sources IH]; intros sources; cbn.
  - by rewrite app_nil_r.
  - by rewrite IH, <- app_assoc.
Qed.

(** X18: The constructor keeps one source per configured entry, in the order of
    the configuration. A configured [num_markers] ends between 1 and 256: it
    is kept when it is in that range, raised to 1 when it is 0 and lowered to
    256 when it is above. Without it, [downloadRanges_] is 4 when the backend
    has a ledger range. *)
Theorem LoadBalancer_new_configuration {Config : Type} (default_downloadRanges : N)
    (num_markers : option N) (has_ledger_range : bool) (etl_sources : list Config)
    (make_Source : Config → Source) :
  sources_ (LoadBalancer_new default_downloadRanges num_markers has_ledger_range
                             etl_sources make_Source)
  = map make_Source etl_sources
  ∧ (∀ value, num_markers = Some value →
       (1 ≤ downloadRanges_ (LoadBalancer_new default_downloadRanges num_markers
                                              has_ledger_range etl_sources make_Source)
        ≤ 256)%N
       ∧ downloadRanges_ (LoadBalancer_new default_downloadRanges num_markers
                                           has_ledger_range etl_sources make_Source)
         = N.min 256 (N.max 1 value))
  ∧ (num_markers = None → has_ledger_range = true →
       downloadRanges_ (LoadBalancer_new default_downloadRanges num_markers
                                         has_ledger_range etl_sources make_Source)
       = 4%N).
Proof.
  unfold LoadBalancer_new. cbn [sources_ downloadRanges_]. split; [|split].
  - by rewrite push_back_all.
  - intros value ->. unfold clamp.
    destruct (N.ltb_spec value 1); [lia|]. destruct (N.ltb_spec 256 value); lia.
  - by intros -> ->.
Qed.

End LoadBalancerFurther.

(** ** Retry *)

Section RetryFurther.
Import Retry.
Local Open Scope N_scope.

Lemma retry_then_fire_state {Fn : Type} (func : Fn) (r : Retry.t Fn) :
  retry_then_fire func r
  = Retry.mk (increaseDelay (strategy_ r))
             (mkTimer (Some (getDelay (strategy_ r))) [])
             (size_t_incr (attemptNumber_ r))
             ((trace r ++ [Armed (getDelay (strategy_ r))]) ++ [Invoked func]).
Proof. unfold retry_then_fire. rewrite retry_state. reflexivity. Qed.

Lemma invoked_snoc_armed {Fn : Type} (tr : list (Event Fn)) (d : duration) :
  invoked (tr ++ [Armed d]) = invoked tr.
Proof. rewrite invoked_app. apply app_nil_r. Qed.

Lemma invoked_snoc_invoked {Fn : Type} (tr : list (Event Fn)) (func : Fn) :
  invoked (tr ++ [Invoked func]) = invoked tr ++ [func].
Proof. by rewrite invoked_app. Qed.

(** X19: A second [retry] while the first is still pending replaces it: the first
    callable never runs, the expiry of the timer runs the second one once and
    counts a single attempt, and a further expiry runs nothing. *)
Theorem retry_replaces_pending (Fn : Type) (r : Retry.t Fn) (f1 f2 : Fn) :
  waits (timer_ (retry f2 (retry f1 r))) = [f2]
  ∧ invoked (trace (retry f2 (retry f1 r))) = invoked (trace r)
  ∧ invoked (trace (timer_fires (retry f2 (retry f1 r)))) = invoked (trace r) ++ [f2]
  ∧ attemptNumber_ (timer_fires (retry f2 (retry f1 r))) = size_t_incr (attemptNumber_ r)
  ∧ timer_fires (timer_fires (retry f2 (retry f1 r))) = timer_fires (retry f2 (retry f1 r)).
Proof.
  fold (retry_then_fire f2 (retry f1 r)).
  rewrite retry_then_fire_state, (retry_state f2), (retry_state f1).
  cbn [strategy_ timer_ attemptNumber_ trace waits].
  rewrite !invoked_snoc_invoked, !invoked_snoc_armed. done.
Qed.

Lemma retry_cycles_state {Fn : Type} (funcs : list Fn) :
  ∀ r : Retry.t Fn,
    invoked (trace (retry_cycles funcs r)) = invoked (trace r) ++ funcs
    ∧ length (armed_delays (trace (retry_cycles funcs r)))
      = (length (armed_delays (trace r)) + length funcs)%nat
    ∧ (attemptNumber_ r + N.of_nat (length funcs) < SIZE_T_MOD →
       attemptNumber_ (retry_cycles funcs r) = attemptNumber_ r + N.of_nat (length funcs)).
Proof.
  induction funcs as [|func funcs IH]; intros r.
  - cbn. rewrite app_nil_r. split; [done|]. split; [lia|]. intros _. lia.
  - change (retry_cycles (func :: funcs) r)
      with (retry_cycles funcs (retry_then_fire func r)).
    destruct (IH (retry_then_fire func r)) as (Hinv & Harmed & Hatt).
    rewrite Hinv, Harmed. rewrite retry_then_fire_state in *.
    cbn [trace attemptNumber_] in *.
    rewrite invoked_snoc_invoked, invoked_snoc_armed.
    rewrite !armed_delays_app, !length_app. cbn [armed_delays omap length].
    split; [by rewrite <- app_assoc|]. split; [cbn; lia|].
    intros Hrange. cbn [length] in Hrange.
    assert (Hstep : size_t_incr (attemptNumber_ r) = attemptNumber_ r + 1).
    { unfold size_t_incr. apply N.mod_small. lia. }
    rewrite Hatt by (rewrite Hstep; lia). rewrite Hstep. lia.
Qed.

(** X20: Cycles of [retry] followed by the expiry of the timer: every callable runs
    exactly once, in the order of the calls, the timer was armed once per
    call, and the attempt number has gone up by the number of cycles, as long
    as it stays below its 64 bits. *)
Theorem retry_cycles_count_attempts (Fn : Type) (funcs : list Fn) (r : Retry.t Fn) :
  attemptNumber_ r + N.of_nat (length funcs) < SIZE_T_MOD →
  invoked (trace (retry_cycles funcs r)) = invoked (trace r) ++ funcs
  ∧ length (armed_delays (trace (retry_cycles funcs r)))
    = (length (armed_delays (trace r)) + length funcs)%nat
  ∧ attemptNumber_ (retry_cycles funcs r) = attemptNumber_ r + N.of_nat (length funcs).
Proof.
  intros Hrange. destruct (retry_cycles_state funcs r) as (Hinv & Harmed & Hatt).
  split; [done|]. split; [done|]. by apply Hatt.
Qed.

End RetryFurther.

Lemma retry_cycles_count_attempts_witness :
  Retry.invoked
    (Retry.trace
       (Retry.retry_cycles ["first"; "second"]
          (Retry.makeRetryExponentialBackoff (Retry.milliseconds 100)
                                             (Retry.milliseconds 1600))))
  = [] ++ ["first"; "second"]
  ∧ length
      (Retry.armed_delays
         (Retry.trace
            (Retry.retry_cycles ["first"; "second"]
               (Retry.makeRetryExponentialBackoff (Retry.milliseconds 100)
                                                  (Retry.milliseconds 1600)))))
    = (0 + 2)%nat
  ∧ Retry.attemptNumber_
      (Retry.retry_cycles ["first"; "second"]
         (Retry.makeRetryExponentialBackoff (Retry.milliseconds 100)
                                            (Retry.milliseconds 1600)))
    = (0 + 2)%N.
Proof.
  apply (retry_cycles_count_attempts string ["first"; "second"]
           (Retry.makeRetryExponentialBackoff (Retry.milliseconds 100)
                                              (Retry.milliseconds 1600))).
  reflexivity.
Defined.

(** Witnesses on the pool of [LoadBalancer.Scenario], with [rand()] returning
    7: the loops start at source 1 and reach source 2, the only one with
    ledger 100, at the next iteration. *)

Lemma pool_indexing_in_bounds_witness :
  @LoadBalancer.execute nat LoadBalancer.Scenario.api bool LoadBalancer.Scenario.pool
    (@LoadBalancer.fetchLedger_worker nat LoadBalancer.Scenario.api 100%N true false)
    100%N 7 5 false
  ≠ LoadBalancer.OutOfRange
  ∧ @LoadBalancer.execute nat LoadBalancer.Scenario.api bool LoadBalancer.Scenario.pool
      (@LoadBalancer.fetchLedger_worker nat LoadBalancer.Scenario.api 100%N true false)
      100%N 7 5 false
    ≠ LoadBalancer.DivisionByZero
  ∧ @LoadBalancer.forwardToRippled nat LoadBalancer.Scenario.api LoadBalancer.Scenario.pool
      "ping" "192.168.0.7" 7 5
    ≠ LoadBalancer.OutOfRange
  ∧ @LoadBalancer.forwardToRippled nat LoadBalancer.Scenario.api LoadBalancer.Scenario.pool
      "ping" "192.168.0.7" 7 5
    ≠ LoadBalancer.DivisionByZero.
Proof.
  apply (@pool_indexing_in_bounds nat LoadBalancer.Scenario.api bool
           LoadBalancer.Scenario.pool
           (@LoadBalancer.fetchLedger_worker nat LoadBalancer.Scenario.api 100%N true false)
           100%N "ping" "192.168.0.7" 7 5 false).
  discriminate.
Defined.

Lemma execute_returns_after_success_witness :
  ∃ (t : nat) (src : nat) (st0 : bool),
    t < 5
    ∧ LoadBalancer.sources_ LoadBalancer.Scenario.pool !! ((7 + t) mod 3) = Some src
    ∧ @LoadBalancer.hasLedger nat LoadBalancer.Scenario.api t src 100%N = true
    ∧ @LoadBalancer.fetchLedger_worker nat LoadBalancer.Scenario.api 100%N true false
        t src st0
      = (true, true).
Proof.
  apply (@execute_returns_after_success nat LoadBalancer.Scenario.api bool
           LoadBalancer.Scenario.pool
           (@LoadBalancer.fetchLedger_worker nat LoadBalancer.Scenario.api 100%N true false)
           100%N 7 5 false true true
           [LoadBalancer.EvHasLedger 1 false; LoadBalancer.EvHasLedger 2 true;
            LoadBalancer.EvWorker 2 true]).
  reflexivity.
Defined.

Lemma execute_never_gives_up_witness :
  @LoadBalancer.execute nat LoadBalancer.Scenario.api bool LoadBalancer.Scenario.pool
    (@LoadBalancer.fetchLedger_worker nat LoadBalancer.Scenario.api 99%N true false)
    99%N 7 1000 false
  = LoadBalancer.OutOfFuel.
Proof.
  apply (@execute_never_gives_up nat LoadBalancer.Scenario.api bool
           LoadBalancer.Scenario.pool
           (@LoadBalancer.fetchLedger_worker nat LoadBalancer.Scenario.api 99%N true false)
           99%N 7 false).
  - discriminate.
  - intros t src st0 _ Hhas. cbn in Hhas. rewrite andb_false_r in Hhas. discriminate.
Defined.

Lemma execute_worker_only_where_ledger_witness :
  @LoadBalancer.execute nat LoadBalancer.Scenario.api bool LoadBalancer.Scenario.pool
    (λ t src st,
       if src =? 2
       then @LoadBalancer.fetchLedger_worker nat LoadBalancer.Scenario.api 100%N true false
              t src st
       else (true, st))
    100%N 7 5 false
  = @LoadBalancer.execute nat LoadBalancer.Scenario.api bool LoadBalancer.Scenario.pool
      (@LoadBalancer.fetchLedger_worker nat LoadBalancer.Scenario.api 100%N true false)
      100%N 7 5 false.
Proof.
  apply (@execute_worker_only_where_ledger nat LoadBalancer.Scenario.api bool
           LoadBalancer.Scenario.pool).
  intros t src st0 Hhas. cbn in Hhas. rewrite andb_true_r in Hhas.
  by rewrite Hhas.
Defined.

Lemma execute_terminates_once_ready_witness :
  ∃ (t0 : nat) (st' : bool) (tr0 : list LoadBalancer.Event) (i' : nat),
    t0 < (0 + 1) * 3
    ∧ (∀ fuel, t0 < fuel →
         @LoadBalancer.execute nat LoadBalancer.Scenario.api bool LoadBalancer.Scenario.pool
           (@LoadBalancer.fetchLedger_worker nat LoadBalancer.Scenario.api 100%N true false)
           100%N 7 fuel false
         = LoadBalancer.Returned (true, st')
             (tr0 ++ [LoadBalancer.EvHasLedger i' true; LoadBalancer.EvWorker i' true]))
    ∧ (∀ j, LoadBalancer.EvWorker j true ∉ tr0).
Proof.
  apply (@execute_terminates_once_ready nat LoadBalancer.Scenario.api bool
           LoadBalancer.Scenario.pool
           (@LoadBalancer.fetchLedger_worker nat LoadBalancer.Scenario.api 100%N true false)
           100%N 7 false 0 2 2).
  - reflexivity.
  - intros t _. split; [reflexivity|]. intros st0. reflexivity.
Defined.

Lemma execute_rotation_and_sleeps_witness :
  ∃ t : nat,
    t < 5
    ∧ LoadBalancer.consulted
        [LoadBalancer.EvHasLedger 1 false; LoadBalancer.EvHasLedger 2 true;
         LoadBalancer.EvWorker 2 true]
      = map (λ j, (7 + j) mod 3) (seq 0 (S t))
    ∧ LoadBalancer.sleeps
        [LoadBalancer.EvHasLedger 1 false; LoadBalancer.EvHasLedger 2 true;
         LoadBalancer.EvWorker 2 true]
      = t / 3.
Proof.
  apply (@execute_rotation_and_sleeps nat LoadBalancer.Scenario.api bool
           LoadBalancer.Scenario.pool
           (@LoadBalancer.fetchLedger_worker nat LoadBalancer.Scenario.api 100%N true false)
           100%N 7 5 false (true, true)).
  reflexivity.
Defined.

Lemma fetchLedger_returns_source_response_witness :
  ∃ (t : nat) (src : nat) (status : bool) (response : bool),
    t < 5
    ∧ LoadBalancer.sources_ LoadBalancer.Scenario.pool !! ((7 + t) mod 3) = Some src
    ∧ @LoadBalancer.hasLedger nat LoadBalancer.Scenario.api t src 100%N = true
    ∧ @LoadBalancer.source_fetchLedger nat LoadBalancer.Scenario.api t src 100%N true false
      = (status, response)
    ∧ status = true
    ∧ response = true
    ∧ Some true = Some response.
Proof.
  apply (@fetchLedger_returns_source_response nat LoadBalancer.Scenario.api
           LoadBalancer.Scenario.pool 100%N true false 7 5 (Some true)
           [LoadBalancer.EvHasLedger 1 false; LoadBalancer.EvHasLedger 2 true;
            LoadBalancer.EvWorker 2 true]).
  reflexivity.
Defined.

Lemma loadInitialLedger_returns_source_data_witness :
  ∃ (t : nat) (src : nat),
    t < 5
    ∧ LoadBalancer.sources_ LoadBalancer.Scenario.pool !! ((7 + t) mod 3) = Some src
    ∧ @LoadBalancer.hasLedger nat LoadBalancer.Scenario.api t src 100%N = true
    ∧ @LoadBalancer.source_loadInitialLedger nat LoadBalancer.Scenario.api t src 100%N
        4%N false
      = (["object"], true)
    ∧ true = true.
Proof.
  apply (@loadInitialLedger_returns_source_data nat LoadBalancer.Scenario.api
           LoadBalancer.Scenario.pool 100%N false 7 5 ["object"] true
           [LoadBalancer.EvHasLedger 1 false; LoadBalancer.EvHasLedger 2 true;
            LoadBalancer.EvWorker 2 true]).
  reflexivity.
Defined.

Lemma forwardToRippled_finds_answer_witness :
  ∃ (res : option string) (tr : list LoadBalancer.Event),
    @LoadBalancer.forwardToRippled nat LoadBalancer.Scenario.api LoadBalancer.Scenario.pool
      "ping" "192.168.0.7" 7 4
    = LoadBalancer.Returned res tr
    ∧ (res = None
       ↔ ∀ src, src ∈ LoadBalancer.sources_ LoadBalancer.Scenario.pool →
                @LoadBalancer.source_forwardToRippled nat LoadBalancer.Scenario.api
                  0 src "ping" "192.168.0.7" = None)
    ∧ (∀ v, res = Some v →
            ∃ src, src ∈ LoadBalancer.sources_ LoadBalancer.Scenario.pool
                   ∧ @LoadBalancer.source_forwardToRippled nat LoadBalancer.Scenario.api
                       0 src "ping" "192.168.0.7" = Some v).
Proof.
  apply (@forwardToRippled_finds_answer nat LoadBalancer.Scenario.api
           LoadBalancer.Scenario.pool "ping" "192.168.0.7" 7 4).
  - discriminate.
  - cbn. lia.
  - intros t src. reflexivity.
Defined.

Lemma shouldPropagateTxnStream_single_leader_witness :
  2 = 2 ∧ 2 ∈ LoadBalancer.sources_ LoadBalancer.Scenario.pool
  ∧ @LoadBalancer.isConnected nat LoadBalancer.Scenario.api 0 2 = true.
Proof.
  apply (@shouldPropagateTxnStream_single_leader nat LoadBalancer.Scenario.api
           LoadBalancer.Scenario.pool 0 2 2).
  - intros a b Heq. by apply Nat.eqb_eq.
  - exists 2. split; [|reflexivity]. cbn. do 2 apply list_elem_of_further.
    apply list_elem_of_here.
  - reflexivity.
  - reflexivity.
Defined.

Lemma LoadBalancer_new_configuration_witness :
  (1 ≤ LoadBalancer.downloadRanges_
         (LoadBalancer.LoadBalancer_new 16 (Some 1000%N) false ["a"; "b"] String.length)
   ≤ 256)%N
  ∧ LoadBalancer.downloadRanges_
      (LoadBalancer.LoadBalancer_new 16 (Some 1000%N) false ["a"; "b"] String.length)
    = N.min 256 (N.max 1 1000).
Proof.
  apply (proj1 (proj2 (@LoadBalancer_new_configuration nat string 16 (Some 1000%N) false
                         ["a"; "b"] String.length))).
  reflexivity.
Defined.
